(** * Verification of the generic core of package [ptr]

    The Go package [ptr] offers helpers that create pointers, dereference
    them safely and convert collections of values to collections of
    pointers and back.  This development embeds the generic functions of
    [ptr.go] (and [ToMap]/[FromMap]) over an explicit store, so that the
    sharing between pointers, slice elements and freshly allocated
    variables is visible in the statements. *)

From stdpp Require Import base list strings gmap.

Local Open Scope nat_scope.

(** ** Go values *)

(** A pointer [*T]: [nil] or the address of a cell of the store. *)
Inductive ptr : Type :=
  | NilPtr
  | Addr (a : nat).

Global Instance ptr_eq_dec : EqDecision ptr.
Proof. solve_decision. Defined.

(** [p == nil] *)
Definition is_nil (p : ptr) : bool :=
  match p with
  | NilPtr => true
  | Addr _ => false
  end.

(** The header of a non-nil slice [[]T]: its elements are the [len]
    consecutive cells starting at [base].  A Go value of type [[]T] is an
    [option slice], [None] being the nil slice. *)
Record slice : Type := Slice { base : nat; len : nat }.

(** A Go value of type [map[string]T] is a reference to a map object of
    the store, or nil. *)
Definition mapref : Type := option nat.

(** A Go function value [func(A) B]: nil, or a function. *)
Definition func (A B : Type) : Type := option (A -> B).

(** ** The store *)

(** [cells] holds every addressable variable of type [T] (escaped locals
    and slice elements alike); [maps] holds the map objects with values of
    type [T].  Slices and maps of pointers are only ever built and read
    by the package, never addressed, so they are carried by their
    contents: [option (list ptr)] and [option (gmap string ptr)]. *)
Record heap (T : Type) : Type := Heap {
  cells : list T;
  maps : list (gmap string T)
}.
Arguments Heap {T} _ _.
Arguments cells {T} _.
Arguments maps {T} _.

(** ** Outcomes *)

Inductive failure : Type :=
  | PanicMsg (msg : string)   (* an explicit [panic(msg)] *)
  | NilDereference            (* runtime error: nil pointer dereference, nil func call *)
  | IndexOutOfRange           (* runtime error: index out of range *)
  | UncomparableOperands      (* runtime error: comparing uncomparable type *)
  | InvalidAddress.           (* an address outside the store: no Go counterpart *)

Inductive outcome (S A : Type) : Type :=
  | Ok (a : A) (s : S)
  | Fail (e : failure).
Arguments Ok {S A} _ _.
Arguments Fail {S A} _.

Definition fails {S A} (o : outcome S A) : bool :=
  match o with
  | Ok _ _ => false
  | Fail _ => true
  end.

(** A computation over a state [S] that may fail. *)
Definition M (S A : Type) : Type := S -> outcome S A.

Definition ret {S A} (a : A) : M S A := fun s => Ok a s.

Definition bind {S A B} (c : M S A) (k : A -> M S B) : M S B :=
  fun s =>
    match c s with
    | Ok a s' => k a s'
    | Fail e => Fail e
    end.

Definition panic {S A} (msg : string) : M S A := fun _ => Fail (PanicMsg msg).

Definition throw {S A} (e : failure) : M S A := fun _ => Fail e.

Notation "'let*' x ':=' c 'in' k" := (bind c (fun x => k))
  (at level 10, x pattern, c at level 100, k at level 200).

(** A [for ... range] loop whose body updates a local [acc]. *)
Fixpoint foldM {S A B} (body : B -> A -> M S B) (xs : list A) (acc : B) : M S B :=
  match xs with
  | [] => ret acc
  | x :: xs' => let* acc' := body acc x in foldM body xs' acc'
  end.

(** ** Primitive statements *)

Section primitives.
Context {T : Type}.

(** [&v] for a local [v] that escapes: a fresh cell initialised with [v]. *)
Definition alloc (v : T) : M (heap T) ptr :=
  fun h => Ok (Addr (length (cells h))) (Heap (cells h ++ [v]) (maps h)).

(** [*p] as an expression. *)
Definition load (p : ptr) : M (heap T) T :=
  fun h =>
    match p with
    | NilPtr => Fail NilDereference
    | Addr a =>
        match cells h !! a with
        | Some v => Ok v h
        | None => Fail InvalidAddress
        end
    end.

(** [*p = v] *)
Definition store (p : ptr) (v : T) : M (heap T) unit :=
  fun h =>
    match p with
    | NilPtr => Fail NilDereference
    | Addr a =>
        if decide (a < length (cells h))
        then Ok tt (Heap (<[a := v]> (cells h)) (maps h))
        else Fail InvalidAddress
    end.

(** [&s[i]] *)
Definition index_addr (s : slice) (i : nat) : M (heap T) ptr :=
  if decide (i < len s) then ret (Addr (base s + i)) else throw IndexOutOfRange.

(** [make([]T, n)]: [n] fresh consecutive cells holding [zero]. *)
Definition make_slice (zero : T) (n : nat) : M (heap T) slice :=
  fun h =>
    Ok (Slice (length (cells h)) n)
       (Heap (cells h ++ replicate n zero) (maps h)).

(** [make([]*T, n)] *)
Definition make_ptrs (n : nat) : list ptr := replicate n NilPtr.

(** [ps[i] = p] on a slice of pointers. *)
Definition set_index {S} (ps : list ptr) (i : nat) (p : ptr) : M S (list ptr) :=
  if decide (i < length ps) then ret (<[i := p]> ps) else throw IndexOutOfRange.

(** The map object a non-nil [map[string]T] refers to. *)
Definition load_map (r : nat) : M (heap T) (gmap string T) :=
  fun h =>
    match maps h !! r with
    | Some m => Ok m h
    | None => Fail InvalidAddress
    end.

(** [make(map[string]T, n)]: a fresh empty map object. *)
Definition make_map : M (heap T) nat :=
  fun h => Ok (length (maps h)) (Heap (cells h) (maps h ++ [∅])).

(** [m[k] = v] for a non-nil [m]. *)
Definition map_assign (r : nat) (k : string) (v : T) : M (heap T) unit :=
  fun h =>
    match maps h !! r with
    | Some m => Ok tt (Heap (cells h) (<[r := <[k := v]> m]> (maps h)))
    | None => Fail InvalidAddress
    end.
End primitives.

(** ** The package *)

Section generic.
Context {T : Type}.

(** [var zero T] *)
Variable zero : T.

(** [==] at a comparable type [T] *)
Variable go_eq : T -> T -> bool.

(** The order in which [range] visits a map is not specified: it is any
    enumeration of the entries. *)
Variable range : forall V : Type, gmap string V -> list (string * V).

(** func To[T any](v T) *T *)
Definition To (v : T) : M (heap T) ptr :=
  alloc v.

(** func From[T any](p *T) T *)
Definition From (p : ptr) : M (heap T) T :=
  if is_nil p then ret zero
  else load p.

(** func FromOr[T any](p *T, defaultValue T) T *)
Definition FromOr (p : ptr) (defaultValue : T) : M (heap T) T :=
  if is_nil p then ret defaultValue
  else load p.

(** func Equal[T comparable](a, b *T) bool *)
Definition Equal (a b : ptr) : M (heap T) bool :=
  if is_nil a && is_nil b then ret true
  else if is_nil a || is_nil b then ret false
  else let* x := load a in let* y := load b in ret (go_eq x y).

(** func Copy[T any](p *T) *T *)
Definition Copy (p : ptr) : M (heap T) ptr :=
  if is_nil p then ret NilPtr
  else let* v := load p in alloc v.

(** func IsNil[T any](p *T) bool *)
Definition IsNil (p : ptr) : M (heap T) bool :=
  ret (is_nil p).

(** func MustFrom[T any](p *T) T *)
Definition MustFrom (p : ptr) : M (heap T) T :=
  if is_nil p then panic "ptr: nil pointer passed to MustFrom"
  else load p.

(** func Coalesce[T any](ptrs ...*T) *T *)
Fixpoint Coalesce (ptrs : list ptr) : ptr :=
  match ptrs with
  | [] => NilPtr
  | p :: rest => if negb (is_nil p) then p else Coalesce rest
  end.

(** func Set[T any](p *T, value T) bool *)
Definition Set_ (p : ptr) (value : T) : M (heap T) bool :=
  if is_nil p then ret false
  else let* _ := store p value in ret true.

(** func ToSlice[T any](values []T) []*T *)
Definition ToSlice (values : option slice) : M (heap T) (option (list ptr)) :=
  match values with
  | None => ret None
  | Some vs =>
      let* result := foldM (fun result i => let* p := index_addr vs i in set_index result i p)
                      (seq 0 (len vs)) (make_ptrs (len vs)) in
      ret (Some result)
  end.

(** func FromSlice[T any](ptrs []*T) []T *)
Definition FromSlice (ptrs : option (list ptr)) : M (heap T) (option slice) :=
  match ptrs with
  | None => ret None
  | Some ps =>
      let* result := make_slice zero (length ps) in
      let* _ := foldM (fun _ '(i, p) =>
                    let* v := From p in let* q := index_addr result i in store q v)
                 (imap pair ps) tt in
      ret (Some result)
  end.

(** func ToMap[T any](values map[string]T) map[string]*T *)
Definition ToMap (values : mapref) : M (heap T) (option (gmap string ptr)) :=
  match values with
  | None => ret None
  | Some r =>
      let* m := load_map r in
      let* result := foldM (fun result '(k, v) => let* p := alloc v in ret (<[k := p]> result))
                      (range T m) (∅ : gmap string ptr) in
      ret (Some result)
  end.

(** func FromMap[T any](ptrs map[string]*T) map[string]T *)
Definition FromMap (ptrs : option (gmap string ptr)) : M (heap T) mapref :=
  match ptrs with
  | None => ret None
  | Some pm =>
      let* result := make_map in
      let* _ := foldM (fun _ '(k, p) => let* v := From p in map_assign result k v)
                 (range ptr pm) tt in
      ret (Some result)
  end.
End generic.

(** func Map[T, R any](p *T, fn func(T) R) *R

    The argument is read in the store of [T], the result is allocated in
    the store of [R]. *)
Definition Map {T R : Type} (p : ptr) (fn : func T R) (hT : heap T) : M (heap R) ptr :=
  if is_nil p then ret NilPtr
  else
    match load p hT with
    | Fail e => throw e
    | Ok x _ =>
        match fn with
        | None => throw NilDereference
        | Some f => alloc (f x)
        end
    end.

(** ** Equality as it runs

    At most types [==] always returns.  At an interface type, or a type
    with interface-typed parts, [T comparable] is satisfied as well, and
    [x == y] panics when the two operands hold values of one and the same
    uncomparable dynamic type (two slices, say). *)
Section dynamic_equality.
Context {T : Type}.

(** [==] at [T], where it returns *)
Variable go_eq : T -> T -> bool.

(** Whether [x == y] returns at all *)
Variable comparable : T -> T -> bool.

(** [x == y] *)
Definition compare (x y : T) : M (heap T) bool :=
  if comparable x y then ret (go_eq x y)
  else throw UncomparableOperands.

(** func Equal[T comparable](a, b *T) bool, for every [T] that satisfies
    the constraint; [Equal] above is the case of a [T] whose [==] always
    returns. *)
Definition Equal_rt (a b : ptr) : M (heap T) bool :=
  if is_nil a && is_nil b then ret true
  else if is_nil a || is_nil b then ret false
  else let* x := load a in let* y := load b in compare x y.
End dynamic_equality.

(** ** Operations whose source is not at hand *)

(** The call [fn(x)] of a function value: calling nil panics. *)
Definition call_func {S A B} (fn : func A B) (x : A) : M S B :=
  match fn with
  | None => throw NilDereference
  | Some f => ret (f x)
  end.

Section combinators.
Context {T : Type}.
Variable zero : T.
Variable go_eq : T -> T -> bool.

(** Modelled from the spec: the source of [Or] is missing (its tests are
    in ptr_test.go).  "preferFirst(a, b): returns a if non-empty, else
    b." *)
Definition Or (a b : ptr) : M (heap T) ptr :=
  if is_nil a then ret b
  else ret a.

(** Modelled from the spec: the source of [Filter] is missing.
    "filter(o, pred): empty input gives empty (pred not invoked); else
    returns o unchanged if pred holds, else empty." *)
Definition Filter (p : ptr) (pred : func T bool) : M (heap T) ptr :=
  if is_nil p then ret NilPtr
  else
    let* v := load p in
    let* keep := call_func pred v in
    if (keep : bool) then ret p else ret NilPtr.

(** Modelled from the spec: the source of [FlatMap] is missing.
    "chain(o, f): empty input gives empty (f not invoked); else returns
    f(extract(o)) directly (no double-wrapping)." *)
Definition FlatMap (p : ptr) (fn : func T ptr) : M (heap T) ptr :=
  if is_nil p then ret NilPtr
  else let* v := load p in call_func fn v.

(** Modelled from the spec: the source of [Bind] is missing.  "chain
    (flat-map/bind, same semantics under two names)." *)
Definition Bind (p : ptr) (fn : func T ptr) : M (heap T) ptr :=
  if is_nil p then ret NilPtr
  else let* v := load p in call_func fn v.

(** Modelled from the spec: the source of [Apply] is missing.
    "tryApply(o, f): if non-empty, invokes f(current) for its side
    effect, returns true; else false, f not invoked." *)
Definition Apply (p : ptr) (fn : func T unit) : M (heap T) bool :=
  if is_nil p then ret false
  else let* v := load p in let* _ := call_func fn v in ret true.

(** Modelled from the spec: the source of [Modify] is missing.
    "tryModify(o, f): if non-empty, replaces the held value with
    f(current) in place, returns true; else false, f not invoked." *)
Definition Modify (p : ptr) (fn : func T T) : M (heap T) bool :=
  if is_nil p then ret false
  else
    let* v := load p in
    let* w := call_func fn v in
    let* _ := store p w in
    ret true.

(** Modelled from the spec: the source of [Swap] is missing.
    "swap(a, b): if both non-empty, exchanges their held values in
    place; if either is empty, no-op." *)
Definition Swap (a b : ptr) : M (heap T) unit :=
  if is_nil a || is_nil b then ret tt
  else
    let* x := load a in
    let* y := load b in
    let* _ := store a y in
    store b x.

(** Modelled from the spec: the source of [NonZero] is missing.
    "nonZeroOrEmpty(v): returns empty if v equals T's zero value, else a
    non-empty reference to v."  A comparison with the zero value always
    returns: no interface inside the zero value holds anything. *)
Definition NonZero (v : T) : M (heap T) ptr :=
  if go_eq v zero then ret NilPtr
  else alloc v.

(** Modelled from the spec: the source of [IsZero] is missing.
    "isZeroOrEmpty(o): true if o is empty, or if non-empty and its value
    equals T's zero value." *)
Definition IsZero (p : ptr) : M (heap T) bool :=
  if is_nil p then ret true
  else let* v := load p in ret (go_eq v zero).

(** Modelled from the spec: the source of [GetOr] is missing, and its
    tests give it the contract of "extractOr(o, default): returns the
    referenced value, or default if empty." *)
Definition GetOr (p : ptr) (defaultValue : T) : M (heap T) T :=
  if is_nil p then ret defaultValue
  else load p.
End combinators.

(** ** Reading the store *)

(** Every pointer a Go program can hold is nil or addresses a live cell. *)
Definition valid_ptr {T} (h : heap T) (p : ptr) : Prop :=
  match p with
  | NilPtr => True
  | Addr a => a < length (cells h)
  end.

(** The cells of a non-nil slice lie in the store. *)
Definition valid_slice {T} (h : heap T) (s : option slice) : Prop :=
  match s with
  | None => True
  | Some s => base s + len s <= length (cells h)
  end.

(** A non-nil [map[string]T] refers to a map object of the store. *)
Definition valid_mapref {T} (h : heap T) (r : mapref) : Prop :=
  match r with
  | None => True
  | Some r => r < length (maps h)
  end.

(** The value held by [p], if any. *)
Definition deref {T} (h : heap T) (p : ptr) : option T :=
  match p with
  | NilPtr => None
  | Addr a => cells h !! a
  end.

(** The elements [s[0], ..., s[len-1]] of a slice. *)
Definition elems {T} (h : heap T) (s : slice) : list T :=
  take (len s) (drop (base s) (cells h)).

(** The pointers [&s[0], ..., &s[len-1]]. *)
Definition elem_ptrs (s : slice) : list ptr :=
  (λ i, Addr (base s + i)) <$> seq 0 (len s).

(** The key set of a [map[string]T], [None] for the nil map. *)
Definition keys {T} (h : heap T) (r : mapref) : option (gset string) :=
  match r with
  | None => None
  | Some r => dom <$> maps h !! r
  end.

(** The value [From] extracts from [p] in store [h]. *)
Definition from_val {T} (zero : T) (h : heap T) (p : ptr) : T :=
  default zero (deref h p).

(** ** One call of the package, for statements that range over all of it *)

(** A call of one of the generic operations. *)
Inductive call (T R : Type) : Type :=
  | CallTo (v : T)
  | CallFrom (p : ptr)
  | CallFromOr (p : ptr) (defaultValue : T)
  | CallEqual (a b : ptr)
  | CallCopy (p : ptr)
  | CallIsNil (p : ptr)
  | CallMustFrom (p : ptr)
  | CallCoalesce (ptrs : list ptr)
  | CallSet (p : ptr) (value : T)
  | CallMap (p : ptr) (fn : func T R)
  | CallToSlice (values : option slice)
  | CallFromSlice (ptrs : option (list ptr))
  | CallToMap (values : mapref)
  | CallFromMap (ptrs : option (gmap string ptr))
  | CallOr (a b : ptr)
  | CallFilter (p : ptr) (pred : func T bool)
  | CallFlatMap (p : ptr) (fn : func T ptr)
  | CallBind (p : ptr) (fn : func T ptr)
  | CallApply (p : ptr) (fn : func T unit)
  | CallModify (p : ptr) (fn : func T T)
  | CallSwap (a b : ptr)
  | CallNonZero (v : T)
  | CallIsZero (p : ptr)
  | CallGetOr (p : ptr) (defaultValue : T).
Arguments CallTo {T R} _.
Arguments CallFrom {T R} _.
Arguments CallFromOr {T R} _ _.
Arguments CallEqual {T R} _ _.
Arguments CallCopy {T R} _.
Arguments CallIsNil {T R} _.
Arguments CallMustFrom {T R} _.
Arguments CallCoalesce {T R} _.
Arguments CallSet {T R} _ _.
Arguments CallMap {T R} _ _.
Arguments CallToSlice {T R} _.
Arguments CallFromSlice {T R} _.
Arguments CallToMap {T R} _.
Arguments CallFromMap {T R} _.
Arguments CallOr {T R} _ _.
Arguments CallFilter {T R} _ _.
Arguments CallFlatMap {T R} _ _.
Arguments CallBind {T R} _ _.
Arguments CallApply {T R} _ _.
Arguments CallModify {T R} _ _.
Arguments CallSwap {T R} _ _.
Arguments CallNonZero {T R} _.
Arguments CallIsZero {T R} _.
Arguments CallGetOr {T R} _ _.

(** The call comes to call a nil function: the pointer is non-nil and the
    function is nil. *)
Inductive calls_nil_function {T R : Type} : call T R → Prop :=
  | nil_function_Map a : calls_nil_function (CallMap (Addr a) None)
  | nil_function_Filter a : calls_nil_function (CallFilter (Addr a) None)
  | nil_function_FlatMap a : calls_nil_function (CallFlatMap (Addr a) None)
  | nil_function_Bind a : calls_nil_function (CallBind (Addr a) None)
  | nil_function_Apply a : calls_nil_function (CallApply (Addr a) None)
  | nil_function_Modify a : calls_nil_function (CallModify (Addr a) None).

(** The call is [Equal] on two non-nil pointers whose held values [==]
    cannot compare. *)
Inductive compares_uncomparable {T R : Type}
    (comparable : T → T → bool) (h : heap T) : call T R → Prop :=
  | uncomparable_Equal a b x y :
      deref h a = Some x → deref h b = Some y → comparable x y = false →
      compares_uncomparable comparable h (CallEqual a b).

Section calls.
Context {T R : Type}.
Variable zero : T.
Variable go_eq : T -> T -> bool.
Variable comparable : T -> T -> bool.
Variable range : forall V : Type, gmap string V -> list (string * V).

(** Does the call end in a panic? *)
Definition panics (c : call T R) (h : heap T) (hR : heap R) : bool :=
  match c with
  | CallTo v => fails (To v h)
  | CallFrom p => fails (From zero p h)
  | CallFromOr p d => fails (FromOr p d h)
  | CallEqual a b => fails (Equal_rt go_eq comparable a b h)
  | CallCopy p => fails (Copy p h)
  | CallIsNil p => fails (IsNil p h)
  | CallMustFrom p => fails (MustFrom p h)
  | CallCoalesce ptrs => fails (ret (Coalesce ptrs) h)
  | CallSet p v => fails (Set_ p v h)
  | CallMap p fn => fails (Map p fn h hR)
  | CallToSlice vs => fails (ToSlice vs h)
  | CallFromSlice ps => fails (FromSlice zero ps h)
  | CallToMap m => fails (ToMap range m h)
  | CallFromMap pm => fails (FromMap zero range pm h)
  | CallOr a b => fails (Or a b h)
  | CallFilter p pred => fails (Filter p pred h)
  | CallFlatMap p fn => fails (FlatMap p fn h)
  | CallBind p fn => fails (Bind p fn h)
  | CallApply p fn => fails (Apply p fn h)
  | CallModify p fn => fails (Modify p fn h)
  | CallSwap a b => fails (Swap a b h)
  | CallNonZero v => fails (NonZero zero go_eq v h)
  | CallIsZero p => fails (IsZero zero go_eq p h)
  | CallGetOr p d => fails (GetOr p d h)
  end.

(** The arguments are values a Go program can hold in store [h]. *)
Definition well_formed (h : heap T) (c : call T R) : Prop :=
  match c with
  | CallTo _ | CallNonZero _ => True
  | CallToSlice vs => valid_slice h vs
  | CallFrom p | CallFromOr p _ | CallCopy p | CallIsNil p
  | CallMustFrom p | CallSet p _ | CallMap p _
  | CallFilter p _ | CallFlatMap p _ | CallBind p _ | CallApply p _
  | CallModify p _ | CallIsZero p | CallGetOr p _ => valid_ptr h p
  | CallEqual a b | CallOr a b | CallSwap a b => valid_ptr h a ∧ valid_ptr h b
  | CallCoalesce ptrs => Forall (valid_ptr h) ptrs
  | CallFromSlice ps => ∀ l, ps = Some l → Forall (valid_ptr h) l
  | CallToMap m => valid_mapref h m
  | CallFromMap pm => ∀ m, pm = Some m → map_Forall (λ _ p, valid_ptr h p) m
  end.

(** The reading of "every operation other than [MustFrom] on nil is
    total" that is put to the test below. *)
Definition only_MustFrom_panics : Prop :=
  ∀ (c : call T R) (h : heap T) (hR : heap R),
    well_formed h c → panics c h hR = true → c = CallMustFrom NilPtr.
End calls.

(** ** The typed helpers, as a family

    Every typed helper returns the call of a generic operation at its
    type: [String(v)] is [To(v)], [ToString(p)] is [From(p)],
    [StringSlice(vs)] is [ToSlice(vs)], and so on for each type. *)
Inductive go_type : Type :=
  | TString | TInt | TInt8 | TInt16 | TInt32 | TInt64
  | TUint | TUint8 | TUint16 | TUint32 | TUint64
  | TFloat32 | TFloat64 | TBool | TByte | TRune | TUintptr
  | TTime | TDuration | TComplex64 | TComplex128.

(** The types that have slice and map helpers ([StringSlice],
    [ToStringSlice], [StringMap], [ToStringMap], ...). *)
Definition has_collection_helpers (t : go_type) : bool :=
  match t with
  | TRune | TUintptr | TComplex64 | TComplex128 => false
  | _ => true
  end.

(** Modelled from the spec: the source of [MustString], [MustInt],
    [MustInt64], [MustBool] and [MustFloat64] is missing (their tests are
    in ptr_test.go).  The typed layer is "equivalent to the generic
    operations instantiated at that type"; these are the types that have
    the helper. *)
Definition has_must_helper (t : go_type) : bool :=
  match t with
  | TString | TInt | TInt64 | TBool | TFloat64 => true
  | _ => false
  end.

Section typed_calls.
(** The values of each type and its zero value. *)
Variable carrier : go_type -> Type.
Variable zero_of : forall t : go_type, carrier t.
Variable range : forall V : Type, gmap string V -> list (string * V).

(** A call of a typed helper. *)
Inductive typed_call : Type :=
  | TypedTo (t : go_type) (v : carrier t)
  | TypedFrom (t : go_type) (p : ptr)
  | TypedMust (t : go_type) (p : ptr)
  | TypedToSlice (t : go_type) (vs : option slice)
  | TypedFromSlice (t : go_type) (ps : option (list ptr))
  | TypedToMap (t : go_type) (vs : mapref)
  | TypedFromMap (t : go_type) (ps : option (gmap string ptr)).

Definition typed_type (c : typed_call) : go_type :=
  match c with
  | TypedTo t _ | TypedFrom t _ | TypedMust t _ | TypedToSlice t _
  | TypedFromSlice t _ | TypedToMap t _ | TypedFromMap t _ => t
  end.

(** The package has this helper. *)
Definition exported (c : typed_call) : bool :=
  match c with
  | TypedTo _ _ | TypedFrom _ _ => true
  | TypedMust t _ => has_must_helper t
  | TypedToSlice t _ | TypedFromSlice t _
  | TypedToMap t _ | TypedFromMap t _ => has_collection_helpers t
  end.

(** Does the call end in a panic? *)
Definition typed_panics (c : typed_call) : heap (carrier (typed_type c)) → bool :=
  match c with
  | TypedTo t v => fun h => fails (To v h)
  | TypedFrom t p => fun h => fails (From (zero_of t) p h)
  | TypedMust t p => fun h => fails (MustFrom p h)
  | TypedToSlice t vs => fun h => fails (ToSlice vs h)
  | TypedFromSlice t ps => fun h => fails (FromSlice (zero_of t) ps h)
  | TypedToMap t vs => fun h => fails (ToMap range vs h)
  | TypedFromMap t ps => fun h => fails (FromMap (zero_of t) range ps h)
  end.

Definition typed_well_formed (c : typed_call) : heap (carrier (typed_type c)) → Prop :=
  match c with
  | TypedTo t v => fun h => True
  | TypedFrom t p | TypedMust t p => fun h => valid_ptr h p
  | TypedToSlice t vs => fun h => valid_slice h vs
  | TypedFromSlice t ps => fun h => ∀ l, ps = Some l → Forall (valid_ptr h) l
  | TypedToMap t vs => fun h => valid_mapref h vs
  | TypedFromMap t ps =>
      fun h => ∀ m, ps = Some m → map_Forall (λ _ p, valid_ptr h p) m
  end.
End typed_calls.
Arguments TypedTo {carrier} _ _.
Arguments TypedFrom {carrier} _ _.
Arguments TypedMust {carrier} _ _.
Arguments TypedToSlice {carrier} _ _.
Arguments TypedFromSlice {carrier} _ _.
Arguments TypedToMap {carrier} _ _.
Arguments TypedFromMap {carrier} _ _.
Arguments typed_type {carrier} _.
Arguments exported {carrier} _.
Arguments typed_well_formed {carrier} _ _.

(** The reading of "a write through a pointer produced by [ToSlice] leaves
    the input slice unchanged" that is put to the test below. *)
Definition ToSlice_leaves_input_unchanged {T} (h : heap T) (vs : slice) : Prop :=
  ∀ ps i p x h1 h2,
    ToSlice (Some vs) h = Ok (Some ps) h1 →
    ps !! i = Some p →
    Set_ p x h1 = Ok true h2 →
    elems h2 vs = elems h vs.

(** ** Typed helpers

    The per-type functions of the package instantiate the generic ones.
    Go's [int] is carried by [Z]: the helpers move values without
    computing on them. *)
Module Typed.
(** func String(v string) *string *)
Definition String (v : string) : M (heap string) ptr := To v.

(** func ToString(p *string) string *)
Definition ToString (p : ptr) : M (heap string) string := From EmptyString p.

(** func Int(v int) *int *)
Definition Int (v : Z) : M (heap Z) ptr := To v.

(** func ToInt(p *int) int *)
Definition ToInt (p : ptr) : M (heap Z) Z := From 0%Z p.

(** func Bool(v bool) *bool *)
Definition Bool (v : bool) : M (heap bool) ptr := To v.

(** func ToBool(p *bool) bool *)
Definition ToBool (p : ptr) : M (heap bool) bool := From false p.

(** func StringSlice(vs []string) []*string *)
Definition StringSlice (vs : option slice) : M (heap string) (option (list ptr)) :=
  ToSlice vs.

(** func ToStringSlice(vs []*string) []string *)
Definition ToStringSlice (vs : option (list ptr)) : M (heap string) (option slice) :=
  FromSlice EmptyString vs.

(** func IntSlice(vs []int) []*int *)
Definition IntSlice (vs : option slice) : M (heap Z) (option (list ptr)) :=
  ToSlice vs.

(** func ToIntSlice(vs []*int) []int *)
Definition ToIntSlice (vs : option (list ptr)) : M (heap Z) (option slice) :=
  FromSlice 0%Z vs.

Section maps.
Variable range : forall V : Type, gmap string V -> list (string * V).

(** func StringMap(vs map[string]string) map[string]*string *)
Definition StringMap (vs : mapref) : M (heap string) (option (gmap string ptr)) :=
  ToMap range vs.

(** func ToStringMap(vs map[string]*string) map[string]string *)
Definition ToStringMap (vs : option (gmap string ptr)) : M (heap string) mapref :=
  FromMap EmptyString range vs.

(** func IntMap(vs map[string]int) map[string]*int *)
Definition IntMap (vs : mapref) : M (heap Z) (option (gmap string ptr)) :=
  ToMap range vs.

(** func ToIntMap(vs map[string]*int) map[string]int *)
Definition ToIntMap (vs : option (gmap string ptr)) : M (heap Z) mapref :=
  FromMap 0%Z range vs.
End maps.
End Typed.

(** ** A concrete store

    Three [int] cells, which are also the elements of the slice
    [[]int{1, 2, 3}], and the map object [map[string]int{"a": 1, "b": 2}].
    Maps are traversed in the order of [map_to_list]. *)
Definition sample_store : heap nat :=
  Heap [1; 2; 3] [ <["a" := 1]> (<["b" := 2]> ∅) ].

Definition sample_slice : slice := Slice 0 3.

Definition sample_ptr_map : gmap string ptr :=
  <["x" := Addr 1]> (<["y" := NilPtr]> ∅).

Definition listed_order : forall V : Type, gmap string V -> list (string * V) :=
  fun V m => map_to_list m.

(** Values for the typed helpers: strings for [string], booleans for
    [bool], integers for every other type. *)
Definition sample_carrier (t : go_type) : Type :=
  match t with
  | TString => string
  | TBool => bool
  | _ => Z
  end.

Definition sample_zero (t : go_type) : sample_carrier t :=
  match t with
  | TString => EmptyString
  | TBool => false
  | _ => 0%Z
  end.

(** Stores of [int] and of [string] cells for the typed helpers. *)
Definition sample_int_store : heap Z :=
  Heap [10%Z; 20%Z] [].

Definition sample_string_store : heap string :=
  Heap ["go"] [].

(** * Properties *)

(** ** Loops *)

(** Invariant rule for [foldM]: [I done acc s] holds after the elements
    [done] have been visited. *)
Lemma foldM_invariant {S A B} (I : list A → B → S → Prop)
    (body : B → A → M S B) (xs : list A) (acc : B) (s : S) :
  I [] acc s →
  (∀ done x rest acc1 s1,
      xs = done ++ x :: rest → I done acc1 s1 →
      ∃ acc2 s2, body acc1 x s1 = Ok acc2 s2 ∧ I (done ++ [x]) acc2 s2) →
  ∃ acc' s', foldM body xs acc s = Ok acc' s' ∧ I xs acc' s'.
Proof.
  intros Hinit Hstep.
  assert (Hgen : ∀ rest done acc1 s1,
             xs = done ++ rest → I done acc1 s1 →
             ∃ acc' s', foldM body rest acc1 s1 = Ok acc' s' ∧ I xs acc' s').
  { induction rest as [|x rest IH]; intros done acc1 s1 Hxs HI.
    - rewrite app_nil_r in Hxs. subst done. by exists acc1, s1.
    - destruct (Hstep done x rest acc1 s1 Hxs HI) as (acc2 & s2 & Hb & HI2).
      destruct (IH (done ++ [x]) acc2 s2) as (acc' & s' & Hf & HI').
      { by rewrite <- app_assoc. }
      { done. }
      exists acc', s'. split; [|done].
      simpl. unfold bind. by rewrite Hb. }
  by apply (Hgen xs []).
Qed.

Lemma bind_Ok {S A B} (c : M S A) (k : A → M S B) (s s' : S) (a : A) :
  c s = Ok a s' → bind c k s = k a s'.
Proof. unfold bind. by intros ->. Qed.

Lemma bind_Fail {S A B} (c : M S A) (k : A → M S B) (s : S) (e : failure) :
  c s = Fail e → bind c k s = Fail e.
Proof. unfold bind. by intros ->. Qed.

Section core_facts.
Context {T : Type}.
Variable zero : T.
Variable go_eq : T -> T -> bool.

Implicit Types (h : heap T) (p q : ptr) (v x d : T).

Lemma load_deref h p v : deref h p = Some v → load p h = Ok v h.
Proof. destruct p as [|a]; simpl; [done|]. by intros ->. Qed.

Lemma deref_valid h p v : deref h p = Some v → valid_ptr h p.
Proof.
  destruct p as [|a]; simpl; [done|]. intros H. by eapply lookup_lt_Some.
Qed.

Lemma valid_deref h a : valid_ptr h (Addr a) → is_Some (deref h (Addr a)).
Proof. simpl. apply lookup_lt_is_Some_2. Qed.

Lemma From_from_val h p : valid_ptr h p → From zero p h = Ok (from_val zero h p) h.
Proof.
  destruct p as [|a]; [done|]. intros Hv.
  destruct (valid_deref h a Hv) as [v Hd].
  unfold From, from_val. simpl. simpl in Hd. by rewrite Hd.
Qed.

(** C1. Constructing a pointer from [v] and extracting from it gives
    [v] back: [From(To(v)) == v], in every store and for every [v]. *)
Theorem From_To_roundtrip h v :
  ∃ p h', To v h = Ok p h' ∧ From zero p h' = Ok v h'.
Proof.
  eexists _, _. split; [reflexivity|].
  unfold From. simpl.
  by rewrite lookup_app_r, Nat.sub_diag.
Qed.

(** C5. [From(nil)] is the zero value and [FromOr(nil, d)] is [d]; on a
    non-nil pointer both return the pointed-to value; neither fails, and
    neither changes the store. *)
Theorem From_FromOr_spec h p d :
  valid_ptr h p →
  (p = NilPtr → From zero p h = Ok zero h ∧ FromOr p d h = Ok d h) ∧
  (∀ v, deref h p = Some v → From zero p h = Ok v h ∧ FromOr p d h = Ok v h) ∧
  fails (From zero p h) = false ∧ fails (FromOr p d h) = false.
Proof.
  intros Hv. split; [by intros ->|]. split.
  - intros v Hd. destruct p as [|a]; [done|].
    unfold From, FromOr. simpl. simpl in Hd. by rewrite Hd.
  - destruct p as [|a]; [done|].
    destruct (valid_deref h a Hv) as [v Hd].
    unfold From, FromOr. simpl. simpl in Hd. by rewrite Hd.
Qed.

(** C6. [Equal(a, b)] is true when both pointers are nil, false when
    exactly one is nil, and otherwise the result of comparing the two
    held values with [==]. *)
Theorem Equal_spec h a b :
  (a = NilPtr → b = NilPtr → Equal go_eq a b h = Ok true h) ∧
  (a = NilPtr → b ≠ NilPtr → Equal go_eq a b h = Ok false h) ∧
  (a ≠ NilPtr → b = NilPtr → Equal go_eq a b h = Ok false h) ∧
  (∀ x y, deref h a = Some x → deref h b = Some y →
          Equal go_eq a b h = Ok (go_eq x y) h).
Proof.
  repeat split.
  - by intros -> ->.
  - intros -> Hb. by destruct b.
  - intros Ha ->. by destruct a.
  - intros x y Ha Hb. destruct a as [|a], b as [|b]; try done.
    unfold Equal, bind. simpl. simpl in Ha, Hb. by rewrite Ha, Hb.
Qed.

(** C8. [Coalesce] returns the first non-nil pointer of its arguments,
    in argument order, and nil when all of them are nil; with no
    argument at all it returns nil. *)
Theorem Coalesce_spec (ptrs : list ptr) :
  Coalesce [] = NilPtr ∧
  ((Forall (λ q, q = NilPtr) ptrs ∧ Coalesce ptrs = NilPtr) ∨
   (∃ pre p post,
      ptrs = pre ++ p :: post ∧ Forall (λ q, q = NilPtr) pre ∧
      p ≠ NilPtr ∧ Coalesce ptrs = p)).
Proof.
  split; [done|].
  induction ptrs as [|p rest IH]; [by left|].
  destruct p as [|a].
  - destruct IH as [[Hall Hc]|(pre & p & post & -> & Hpre & Hp & Hc)].
    + left. split; [by constructor|done].
    + right. exists (NilPtr :: pre), p, post.
      repeat split; [by constructor|done|done].
  - right. exists [], (Addr a), rest. by repeat split.
Qed.

(** C10. [From] is [FromOr] with the zero value as the default, for
    every pointer, nil or not, and every store. *)
Theorem From_is_FromOr_zero h p :
  From zero p h = FromOr p zero h.
Proof. by destruct p. Qed.
End core_facts.

Section mutation_facts.
Context {T : Type}.

Implicit Types (h : heap T) (p q : ptr) (v x : T).

(** A write through a valid non-nil pointer succeeds and replaces the
    one cell the pointer addresses. *)
Lemma Set_valid h a x :
  a < length (cells h) →
  Set_ (Addr a) x h = Ok true (Heap (<[a := x]> (cells h)) (maps h)).
Proof.
  intros Ha. unfold Set_, bind, store. simpl.
  by rewrite decide_True.
Qed.

Lemma Set_nil h x : Set_ NilPtr x h = Ok false h.
Proof. done. Qed.

Lemma Copy_valid h a v :
  cells h !! a = Some v →
  Copy (Addr a) h = Ok (Addr (length (cells h))) (Heap (cells h ++ [v]) (maps h)).
Proof. intros Ha. unfold Copy, bind, load. simpl. by rewrite Ha. Qed.

(** C7. [Copy(nil)] is nil.  For a non-nil [p] holding [v], [Copy(p)]
    is a new non-nil pointer, different from [p] and from every pointer
    of the store before the call, that holds [v] as well; the value is
    copied as it is, so that any reference stored inside it is the same
    reference in both; and after [Set(p, x)] the copy still holds [v]. *)
Theorem Copy_spec h p v :
  deref h p = Some v →
  Copy NilPtr h = Ok NilPtr h ∧
  ∃ q h1,
    Copy p h = Ok q h1 ∧
    q ≠ NilPtr ∧ q ≠ p ∧ ¬ valid_ptr h q ∧
    deref h1 q = Some v ∧ deref h1 p = Some v ∧
    (∀ field : T → ptr, field <$> deref h1 q = field <$> deref h1 p) ∧
    ∀ x, ∃ h2,
      Set_ p x h1 = Ok true h2 ∧
      deref h2 p = Some x ∧ deref h2 q = Some v.
Proof.
  intros Hp. split; [done|].
  destruct p as [|a]; [done|]. simpl in Hp.
  pose proof (lookup_lt_Some _ _ _ Hp) as Hlt.
  exists (Addr (length (cells h))), (Heap (cells h ++ [v]) (maps h)).
  assert (Hq : (cells h ++ [v]) !! length (cells h) = Some v).
  { by rewrite lookup_app_r, Nat.sub_diag. }
  assert (Hp1 : (cells h ++ [v]) !! a = Some v).
  { by rewrite lookup_app_l. }
  split; [by apply Copy_valid|].
  split; [done|].
  split; [intros [= Heq]; lia|].
  split; [simpl; lia|].
  split; [done|]. split; [done|].
  split; [intros field; simpl; by rewrite Hq, Hp1|].
  intros x. eexists. split.
  { apply Set_valid. simpl. rewrite length_app. simpl. lia. }
  simpl. split.
  - apply list_lookup_insert_eq. rewrite length_app. simpl. lia.
  - rewrite list_lookup_insert_ne by lia. done.
Qed.
End mutation_facts.

Section slice_facts.
Context {T : Type}.
Variable zero : T.

Implicit Types (h : heap T) (p q : ptr) (v x : T) (vs : slice).

Lemma seq_split_position n (done rest : list nat) (k : nat) :
  seq 0 n = done ++ k :: rest → k = length done ∧ k < n.
Proof.
  intros Hseq.
  assert (Hl : seq 0 n !! length done = Some k).
  { rewrite Hseq. by rewrite lookup_app_r, Nat.sub_diag. }
  apply lookup_seq in Hl. lia.
Qed.

Lemma elem_ptrs_lookup vs i :
  i < len vs → elem_ptrs vs !! i = Some (Addr (base vs + i)).
Proof.
  intros Hi. unfold elem_ptrs. rewrite list_lookup_fmap.
  by rewrite lookup_seq_lt.
Qed.

Lemma elem_ptrs_length vs : length (elem_ptrs vs) = len vs.
Proof. unfold elem_ptrs. by rewrite length_fmap, length_seq. Qed.

Lemma elem_ptrs_NoDup vs : NoDup (elem_ptrs vs).
Proof.
  apply NoDup_fmap_2; [|apply NoDup_seq].
  intros i j [= Hij]. lia.
Qed.

(** The loop of [ToSlice] fills [result] with the addresses of the
    elements of [values], and neither reads nor writes the store. *)
Lemma ToSlice_result h vs :
  ToSlice (Some vs) h = Ok (Some (elem_ptrs vs)) h.
Proof.
  unfold ToSlice.
  match goal with
  | |- context [foldM ?body ?xs ?acc] =>
      destruct (foldM_invariant
        (λ done result s,
           s = h ∧ length result = len vs ∧
           ∀ j, j < length done → result !! j = Some (Addr (base vs + j)))
        body xs acc h)
        as (result & s & Hfold & -> & Hlen & Hres)
  end.
  - split; [done|]. split; [apply length_replicate|]. simpl. lia.
  - intros done k rest acc1 s1 Hseq (-> & Hlen & Hres).
    apply seq_split_position in Hseq as [-> Hlt].
    exists (<[length done := Addr (base vs + length done)]> acc1), h.
    split.
    + unfold bind, index_addr, set_index.
      rewrite decide_True by done. unfold ret.
      by rewrite decide_True by lia.
    + split; [done|]. split; [by rewrite length_insert|].
      intros j. rewrite length_app. simpl. intros Hj.
      destruct (decide (j = length done)) as [->|Hne].
      * apply list_lookup_insert_eq. lia.
      * rewrite list_lookup_insert_ne by done. apply Hres. lia.
  - erewrite bind_Ok by exact Hfold. unfold ret. do 2 f_equal.
    apply list_eq_same_length with (len vs);
      [by rewrite elem_ptrs_length|done|].
    intros i y z Hi Hy Hz.
    rewrite Hres in Hy by (by rewrite length_seq).
    rewrite elem_ptrs_lookup in Hz by done. congruence.
Qed.

Lemma elems_lookup h vs i :
  i < len vs → elems h vs !! i = cells h !! (base vs + i).
Proof.
  intros Hi. unfold elems. rewrite lookup_take_lt by done.
  by rewrite lookup_drop.
Qed.

Lemma elems_length h vs :
  valid_slice h (Some vs) → length (elems h vs) = len vs.
Proof.
  simpl. intros Hv. unfold elems. rewrite length_take, length_drop. lia.
Qed.

(** Writing [x] to the cell of element [i] is the assignment
    [vs[i] = x]. *)
Lemma elems_insert h vs i x :
  valid_slice h (Some vs) → i < len vs →
  elems (Heap (<[base vs + i := x]> (cells h)) (maps h)) vs
  = <[i := x]> (elems h vs).
Proof.
  simpl. intros Hv Hi.
  apply list_eq_same_length with (len vs).
  - rewrite length_insert. by apply elems_length.
  - apply elems_length. simpl. by rewrite length_insert.
  - intros j y z Hj Hy Hz.
    rewrite elems_lookup in Hy by done. simpl in Hy.
    destruct (decide (j = i)) as [->|Hne].
    + rewrite list_lookup_insert_eq in Hy by lia.
      rewrite list_lookup_insert_eq in Hz by (rewrite elems_length; done).
      congruence.
    + rewrite list_lookup_insert_ne in Hy by lia.
      rewrite list_lookup_insert_ne in Hz by done.
      rewrite elems_lookup in Hz by done. congruence.
Qed.
End slice_facts.

Section slice_conversions.
Context {T : Type}.
Variable zero : T.

Implicit Types (h : heap T) (p q : ptr) (v x : T) (vs : slice).

(** C2, as the code has it.  For a non-nil [values], [ToSlice(values)]
    is a slice of the same length whose [i]-th element is the non-nil
    pointer [&values[i]]: it addresses the [i]-th element of the input
    itself, not a copy.  The pointers are pairwise distinct, so a write
    through one of them is seen through no other; it is the assignment
    [values[i] = x] on the input slice. *)
Theorem ToSlice_points_into_input h vs i x :
  valid_slice h (Some vs) → i < len vs →
  ∃ ps p,
    ToSlice (Some vs) h = Ok (Some ps) h ∧
    length ps = len vs ∧
    NoDup ps ∧
    ps !! i = Some p ∧ p ≠ NilPtr ∧
    index_addr vs i h = Ok p h ∧
    deref h p = elems h vs !! i ∧
    ∃ h2,
      Set_ p x h = Ok true h2 ∧
      elems h2 vs = <[i := x]> (elems h vs) ∧
      ∀ j q, j ≠ i → ps !! j = Some q → deref h2 q = deref h q.
Proof.
  intros Hv Hi. pose proof Hv as Hv'. simpl in Hv'.
  exists (elem_ptrs vs), (Addr (base vs + i)).
  split; [apply ToSlice_result|].
  split; [apply elem_ptrs_length|].
  split; [apply elem_ptrs_NoDup|].
  split; [by apply elem_ptrs_lookup|].
  split; [done|].
  split; [unfold index_addr; by rewrite decide_True|].
  split; [simpl; by rewrite elems_lookup|].
  eexists. split; [apply Set_valid; lia|].
  split; [by apply elems_insert|].
  intros j q Hne Hj.
  assert (Hjlt : j < len vs).
  { apply lookup_lt_Some in Hj. by rewrite elem_ptrs_length in Hj. }
  rewrite elem_ptrs_lookup in Hj by done. injection Hj as <-.
  simpl. apply list_lookup_insert_ne. lia.
Qed.

Lemma imap_pair_split_position (ps : list ptr) done rest i p :
  imap pair ps = done ++ (i, p) :: rest →
  i = length done ∧ ps !! i = Some p.
Proof.
  intros Hsplit.
  assert (Hl : imap pair ps !! length done = Some (i, p)).
  { rewrite Hsplit. by rewrite lookup_app_r, Nat.sub_diag. }
  rewrite list_lookup_imap in Hl.
  destruct (ps !! length done) as [p'|] eqn:Hp; [|done].
  simpl in Hl. injection Hl as <- <-. done.
Qed.

(** Cells of [h] keep their contents in any store that extends [h]. *)
Lemma from_val_extend h (extra : list T) ms p :
  valid_ptr h p →
  from_val zero (Heap (cells h ++ extra) ms) p = from_val zero h p.
Proof.
  destruct p as [|a]; [done|]. simpl. intros Ha.
  unfold from_val. simpl. by rewrite lookup_app_l.
Qed.

(** The loop of [FromSlice] writes [From(p)] for each pointer, in order,
    into fresh cells. *)
Lemma FromSlice_result h ps :
  Forall (valid_ptr h) ps →
  FromSlice zero (Some ps) h
  = Ok (Some (Slice (length (cells h)) (length ps)))
       (Heap (cells h ++ (from_val zero h <$> ps)) (maps h)).
Proof.
  intros Hvalid. unfold FromSlice.
  erewrite bind_Ok by reflexivity. cbv beta.
  set (n := length ps). set (b := length (cells h)).
  match goal with
  | |- bind (foldM ?body ?xs ?acc) _ ?s0 = _ =>
      destruct (foldM_invariant
        (λ done (_ : unit) s,
           maps s = maps h ∧
           cells s = cells h ++ (from_val zero h <$> take (length done) ps)
                             ++ replicate (n - length done) zero)
        body xs acc s0)
        as ([] & s & Hfold & Hmaps & Hcells)
  end.
  - split; [done|]. simpl. by rewrite Nat.sub_0_r.
  - intros done [i p] rest [] s1 Hsplit [Hmaps Hcells].
    apply imap_pair_split_position in Hsplit as [-> Hp].
    set (d := length done) in *.
    assert (Hd : d < n) by (by eapply lookup_lt_Some).
    assert (Hvp : valid_ptr h p).
    { eapply Forall_lookup_1; eauto. }
    assert (Hfrom : From zero p s1 = Ok (from_val zero h p) s1).
    { rewrite From_from_val.
      - destruct s1 as [c1 m1]. simpl in Hcells. subst c1.
        by rewrite from_val_extend.
      - destruct p as [|a]; [done|]. simpl in *.
        rewrite Hcells, length_app. lia. }
    assert (Hlen1 : length (cells s1) = b + n).
    { rewrite Hcells, !length_app, length_fmap, length_take, length_replicate.
      fold n b. lia. }
    eexists tt, _. split.
    + erewrite bind_Ok by exact Hfrom.
      unfold index_addr. simpl. rewrite decide_True by done.
      erewrite bind_Ok by reflexivity.
      unfold store. rewrite decide_True by lia. reflexivity.
    + simpl. split; [done|].
      rewrite length_app. simpl. fold d.
      replace (d + 1) with (S d) by lia.
      rewrite (take_S_r _ _ _ Hp), fmap_app. simpl.
      rewrite Hcells.
      replace (n - d) with (S (n - S d)) by lia. simpl.
      rewrite insert_app_r_alt by (fold b; lia).
      rewrite insert_app_r_alt
        by (rewrite length_fmap, length_take; fold b n; lia).
      rewrite length_fmap, length_take. fold b n.
      replace (b + d - b - d `min` n) with 0 by lia. simpl.
      by rewrite <- app_assoc.
  - erewrite bind_Ok by exact Hfold. unfold ret. f_equal.
    destruct s as [c m]. simpl in *. subst m. f_equal.
    rewrite Hcells, length_imap. fold n.
    rewrite Nat.sub_diag. simpl. rewrite app_nil_r.
    by rewrite take_ge by (unfold n; lia).
Qed.
End slice_conversions.

(** C2, as it is stated, fails: with [values = []int{1, 2, 3}], storing
    [100] through the first pointer of [ToSlice(values)] makes
    [values[0] == 100]. *)
Lemma ToSlice_aliases_input :
  ¬ ToSlice_leaves_input_unchanged (Heap [1; 2; 3] []) (Slice 0 3).
Proof.
  intros Hclaim.
  specialize (Hclaim [Addr 0; Addr 1; Addr 2] 0 (Addr 0) 100
                (Heap [1; 2; 3] []) (Heap [100; 2; 3] [])
                eq_refl eq_refl eq_refl).
  discriminate Hclaim.
Qed.

Section map_conversions.
Context {T : Type}.
Variable zero : T.
Variable range : forall V : Type, gmap string V -> list (string * V).
Hypothesis range_perm : ∀ V (m : gmap string V), range V m ≡ₚ map_to_list m.

Implicit Types (h : heap T) (p q : ptr) (v x : T) (k : string).

Lemma range_lookup {V} (m : gmap string V) k (w : V) :
  (k, w) ∈ range V m ↔ m !! k = Some w.
Proof. rewrite range_perm. apply elem_of_map_to_list. Qed.

Lemma range_NoDup_keys {V} (m : gmap string V) : NoDup ((range V m).*1).
Proof. rewrite range_perm. apply NoDup_fst_map_to_list. Qed.

Lemma range_keys {V} (m : gmap string V) :
  list_to_set ((range V m).*1) = dom m.
Proof.
  apply set_eq. intros k.
  rewrite elem_of_list_to_set, list_elem_of_fmap, elem_of_dom. split.
  - intros ([k' w] & -> & Hin). apply range_lookup in Hin. by exists w.
  - intros [w Hw]. exists (k, w). split; [done|]. by apply range_lookup.
Qed.

(** A key that [range] is about to visit has not been visited yet. *)
Lemma range_key_fresh {V} (m : gmap string V) done k (w : V) rest :
  range V m = done ++ (k, w) :: rest → k ∉ done.*1.
Proof.
  intros Hsplit. pose proof (range_NoDup_keys m) as Hnd.
  rewrite Hsplit, fmap_app in Hnd. simpl in Hnd.
  apply NoDup_app in Hnd as (_ & Hdisj & _).
  intros Hin. apply (Hdisj k Hin). by left.
Qed.

(** The loop of [ToMap] allocates one fresh cell per entry, in the order
    of the traversal, and reads nothing but the input map. *)
Lemma ToMap_result h r (m : gmap string T) :
  maps h !! r = Some m →
  ∃ pm : gmap string ptr,
    ToMap range (Some r) h
    = Ok (Some pm) (Heap (cells h ++ (range T m).*2) (maps h)) ∧
    dom pm = dom m ∧
    ∀ i k v, range T m !! i = Some (k, v) →
             pm !! k = Some (Addr (length (cells h) + i)).
Proof.
  intros Hr. unfold ToMap.
  assert (Hload : load_map r h = Ok m h).
  { unfold load_map. by rewrite Hr. }
  erewrite bind_Ok by exact Hload. cbv beta.
  match goal with
  | |- context [foldM ?body ?xs ?acc] =>
      destruct (foldM_invariant
        (λ done (result : gmap string ptr) s,
           s = Heap (cells h ++ done.*2) (maps h) ∧
           dom result = list_to_set (done.*1) ∧
           ∀ i k v, done !! i = Some (k, v) →
                    result !! k = Some (Addr (length (cells h) + i)))
        body xs acc h)
        as (pm & s & Hfold & -> & Hdom & Hlook)
  end.
  - split; [destruct h; simpl; by rewrite app_nil_r|].
    split; [by rewrite dom_empty_L|]. intros i k v Hi. done.
  - intros done [k v] rest acc1 s1 Hsplit (-> & Hdom & Hlook).
    pose proof (range_key_fresh _ _ _ _ _ Hsplit) as Hfresh.
    eexists _, _. split; [reflexivity|]. simpl.
    split; [by rewrite fmap_app, app_assoc|].
    split.
    + rewrite dom_insert_L, Hdom, fmap_app, list_to_set_app_L. simpl.
      rewrite union_empty_r_L. apply union_comm_L.
    + intros i k' v' Hi.
      rewrite length_app, length_fmap.
      destruct (decide (i < length done)) as [Hlt|Hge].
      * rewrite lookup_app_l in Hi by done.
        assert (k' ≠ k).
        { intros ->. apply Hfresh. apply list_elem_of_fmap.
          exists (k, v'). split; [done|]. by eapply list_elem_of_lookup_2. }
        rewrite lookup_insert_ne by done. by eapply Hlook.
      * rewrite lookup_app_r in Hi by lia.
        destruct (i - length done) as [|?] eqn:Hsub; [|done].
        simpl in Hi. injection Hi as <- <-.
        rewrite lookup_insert_eq. do 2 f_equal. lia.
  - exists pm. split; [by erewrite bind_Ok by exact Hfold|].
    split; [by rewrite Hdom, range_keys|done].
Qed.

(** The loop of [FromMap] stores [From(p)] under each key of a fresh map
    object, and leaves every cell as it was. *)
Lemma FromMap_result h (pm : gmap string ptr) :
  map_Forall (λ _ p, valid_ptr h p) pm →
  FromMap zero range (Some pm) h
  = Ok (Some (length (maps h)))
       (Heap (cells h) (maps h ++ [from_val zero h <$> pm])).
Proof.
  intros Hvalid. unfold FromMap.
  erewrite bind_Ok by reflexivity. cbv beta.
  set (r := length (maps h)).
  match goal with
  | |- bind (foldM ?body ?xs ?acc) _ ?s0 = _ =>
      destruct (foldM_invariant
        (λ done (_ : unit) s,
           cells s = cells h ∧
           ∃ result : gmap string T,
             maps s = maps h ++ [result] ∧
             dom result = list_to_set (done.*1) ∧
             ∀ k p, (k, p) ∈ done → result !! k = Some (from_val zero h p))
        body xs acc s0)
        as ([] & s & Hfold & Hcells & result & Hmaps & Hdom & Hlook)
  end.
  - split; [done|]. exists ∅. split; [done|].
    split; [by rewrite dom_empty_L|]. intros k p Hin. by apply elem_of_nil in Hin.
  - intros done [k p] rest [] s1 Hsplit (Hcells & acc1 & Hmaps & Hdom & Hlook).
    pose proof (range_key_fresh _ _ _ _ _ Hsplit) as Hfresh.
    assert (Hin : (k, p) ∈ range ptr pm).
    { rewrite Hsplit. apply elem_of_app. right. by left. }
    apply range_lookup in Hin.
    assert (Hvp : valid_ptr h p) by (by eapply Hvalid).
    assert (Hfrom : From zero p s1 = Ok (from_val zero h p) s1).
    { rewrite From_from_val.
      - unfold from_val, deref. by rewrite Hcells.
      - destruct p; [done|]. simpl. by rewrite Hcells. }
    assert (Hr : maps s1 !! r = Some acc1).
    { rewrite Hmaps. by rewrite lookup_app_r, Nat.sub_diag. }
    eexists tt, _. split.
    + erewrite bind_Ok by exact Hfrom.
      unfold map_assign. rewrite Hr. reflexivity.
    + simpl. split; [done|].
      exists (<[k := from_val zero h p]> acc1). split.
      { rewrite Hmaps. rewrite insert_app_r_alt by (fold r; lia).
        fold r. by rewrite Nat.sub_diag. }
      split.
      { rewrite dom_insert_L, Hdom, fmap_app, list_to_set_app_L. simpl.
        rewrite union_empty_r_L. apply union_comm_L. }
      intros k' p' Hin'. apply elem_of_app in Hin' as [Hin'|Hin'].
      * assert (k' ≠ k).
        { intros ->. apply Hfresh. apply list_elem_of_fmap.
          by exists (k, p'). }
        rewrite lookup_insert_ne by done. by apply Hlook.
      * apply list_elem_of_singleton in Hin'. injection Hin' as -> ->.
        by rewrite lookup_insert_eq.
  - erewrite bind_Ok by exact Hfold. unfold ret. f_equal.
    destruct s as [c ms]. simpl in *. subst c ms. do 3 f_equal.
    apply map_eq. intros k. rewrite lookup_fmap.
    destruct (pm !! k) as [p|] eqn:Hk; simpl.
    + apply Hlook. by apply range_lookup.
    + apply not_elem_of_dom. rewrite Hdom, range_keys.
      by apply not_elem_of_dom.
Qed.
End map_conversions.

Section package_facts.
Context {T R : Type}.
Variable zero : T.
Variable go_eq : T -> T -> bool.
Variable range : forall V : Type, gmap string V -> list (string * V).
Hypothesis range_perm : ∀ V (m : gmap string V), range V m ≡ₚ map_to_list m.

Implicit Types (h : heap T) (p q : ptr) (v x : T) (k : string).

(** C4. Each of the four conversions returns the nil collection for the
    nil collection and a non-nil collection otherwise, of the same
    length (slices) or with the same key set (maps): [None] stands for
    nil, and the empty collection is the non-nil one of length [0] or
    of key set [∅]. *)
Theorem conversions_preserve_shape h
    (vs : option slice) (ps : option (list ptr))
    (vm : mapref) (pm : option (gmap string ptr)) :
  (∀ l, ps = Some l → Forall (valid_ptr h) l) →
  valid_mapref h vm →
  (∀ m, pm = Some m → map_Forall (λ _ p, valid_ptr h p) m) →
  (∃ out h', ToSlice vs h = Ok out h' ∧ length <$> out = len <$> vs) ∧
  (∃ out h', FromSlice zero ps h = Ok out h' ∧
             len <$> out = length <$> ps ∧ valid_slice h' out) ∧
  (∃ out h', ToMap range vm h = Ok out h' ∧ dom <$> out = keys h vm) ∧
  (∃ out h', FromMap zero range pm h = Ok out h' ∧
             keys h' out = dom <$> pm).
Proof.
  intros Hps Hvm Hpm. repeat split.
  - destruct vs as [s|]; [|by exists None, h].
    exists (Some (elem_ptrs s)), h. split; [apply ToSlice_result|].
    simpl. by rewrite elem_ptrs_length.
  - destruct ps as [l|]; [|by exists None, h].
    eexists _, _. split; [apply FromSlice_result; by apply Hps|].
    split; [done|]. simpl. rewrite length_app, length_fmap. lia.
  - destruct vm as [r|]; [|by exists None, h].
    simpl in Hvm. apply lookup_lt_is_Some_2 in Hvm as [m Hm].
    destruct (ToMap_result range range_perm h r m Hm) as (out & Hrun & Hdom & _).
    eexists _, _. split; [exact Hrun|].
    simpl. by rewrite Hm, Hdom.
  - destruct pm as [m|]; [|by exists None, h].
    eexists _, _.
    split; [apply FromMap_result; [done|by apply Hpm]|].
    simpl. rewrite lookup_app_r, Nat.sub_diag by done. simpl.
    by rewrite dom_fmap_L.
Qed.

(** C9. For a key [k] of a non-nil map [m], [ToMap(m)[k]] is a non-nil
    pointer to a cell that did not exist before the call and that holds
    [m[k]].  A write through it changes that cell only: the map [m],
    every cell that existed before the call, and the cells behind the
    other keys of the result keep their values. *)
Theorem ToMap_fresh_copies h r (m : gmap string T) k v x :
  maps h !! r = Some m → m !! k = Some v →
  ∃ (pm : gmap string ptr) h1 a,
    ToMap range (Some r) h = Ok (Some pm) h1 ∧
    pm !! k = Some (Addr a) ∧
    ¬ valid_ptr h (Addr a) ∧
    deref h1 (Addr a) = Some v ∧
    maps h1 = maps h ∧
    ∃ h2,
      Set_ (Addr a) x h1 = Ok true h2 ∧
      deref h2 (Addr a) = Some x ∧
      maps h2 !! r = Some m ∧
      (∀ b, b < length (cells h) → cells h2 !! b = cells h !! b) ∧
      (∀ k' q, k' ≠ k → pm !! k' = Some q → deref h2 q = deref h1 q).
Proof.
  intros Hr Hk.
  destruct (ToMap_result range range_perm h r m Hr) as (pm & Hrun & Hdom & Hlook).
  assert (Hin : (k, v) ∈ range T m) by (by apply range_lookup).
  apply list_elem_of_lookup_1 in Hin as [i Hi].
  pose proof (lookup_lt_Some _ _ _ Hi) as Hilt.
  set (b0 := length (cells h)).
  assert (Hcell : (cells h ++ (range T m).*2) !! (b0 + i) = Some v).
  { rewrite lookup_app_r by (unfold b0; lia).
    replace (b0 + i - length (cells h)) with i by (unfold b0; lia).
    by rewrite list_lookup_fmap, Hi. }
  exists pm, (Heap (cells h ++ (range T m).*2) (maps h)), (b0 + i).
  split; [done|]. split; [by eapply Hlook|].
  split; [simpl; fold b0; lia|]. split; [done|]. split; [done|].
  eexists. split.
  { apply Set_valid. simpl. rewrite length_app, length_fmap. fold b0. lia. }
  simpl. split.
  { apply list_lookup_insert_eq. rewrite length_app, length_fmap. fold b0. lia. }
  split; [done|]. split.
  { intros b Hb. rewrite list_lookup_insert_ne by (unfold b0; lia).
    by rewrite lookup_app_l. }
  intros k' q Hne Hq.
  assert (Hk' : is_Some (m !! k')).
  { apply elem_of_dom. rewrite <- Hdom. apply elem_of_dom. by exists q. }
  destruct Hk' as [v' Hv'].
  assert (Hin' : (k', v') ∈ range T m) by (by apply range_lookup).
  apply list_elem_of_lookup_1 in Hin' as [j Hj].
  rewrite (Hlook j k' v' Hj) in Hq. injection Hq as <-.
  simpl. apply list_lookup_insert_ne.
  intros Heq. assert (i = j) by lia. subst j. congruence.
Qed.

End package_facts.

Section failure_paths.
Context {T R : Type}.
Variable zero : T.
Variable go_eq : T -> T -> bool.
Variable comparable : T -> T -> bool.
Variable range : forall V : Type, gmap string V -> list (string * V).
Hypothesis range_perm : ∀ V (m : gmap string V), range V m ≡ₚ map_to_list m.
Variable carrier : go_type -> Type.
Variable zero_of : forall t : go_type, carrier t.

Implicit Types (h : heap T) (hR : heap R) (p q : ptr).

Ltac never_panics :=
  split;
  [ intros; discriminate
  | intros [Heq | [Hnil | Hunc]];
    [ discriminate Heq
    | by inversion Hnil
    | inversion Hunc; simplify_eq/=; try congruence ] ].

Ltac nil_function_panics :=
  split; [ intros _; right; left; constructor | done ].

Lemma MustFrom_nil_only {A} (g : heap A) p :
  valid_ptr g p → fails (MustFrom p g) = true ↔ p = NilPtr.
Proof.
  intros Hp. destruct p as [|a]; [done|].
  destruct (valid_deref g a Hp) as [v Hv].
  unfold MustFrom. simpl. simpl in Hv. rewrite Hv. split; intros; done.
Qed.

(** Which calls of the generic operations fail. *)
Lemma generic_call_panics (c : call T R) h hR :
  well_formed h c →
  panics zero go_eq comparable range c h hR = true ↔
    c = CallMustFrom NilPtr ∨ calls_nil_function c ∨
    compares_uncomparable comparable h c.
Proof.
  intros Hwf. destruct c; simpl in *.
  - never_panics.
  - rewrite (From_from_val zero) by done. never_panics.
  - destruct p as [|a]; [never_panics|].
    destruct (valid_deref h a Hwf) as [w Hw].
    unfold FromOr. simpl. simpl in Hw. rewrite Hw. never_panics.
  - destruct Hwf as [Ha Hb].
    destruct a as [|a], b as [|b]; try never_panics.
    destruct (valid_deref h a Ha) as [wa Hwa].
    destruct (valid_deref h b Hb) as [wb Hwb].
    unfold Equal_rt, bind, compare. simpl. simpl in Hwa, Hwb.
    rewrite Hwa, Hwb.
    destruct (comparable wa wb) eqn:Hcmp; simpl.
    + never_panics.
    + split; [|done]. intros _. right. right.
      by apply (uncomparable_Equal _ _ _ _ wa wb).
  - destruct p as [|a]; [never_panics|].
    destruct (valid_deref h a Hwf) as [w Hw].
    rewrite (Copy_valid h a w Hw). never_panics.
  - never_panics.
  - destruct p as [|a].
    + split; [by left|done].
    + destruct (valid_deref h a Hwf) as [w Hw].
      unfold MustFrom. simpl. simpl in Hw. rewrite Hw. never_panics.
  - never_panics.
  - destruct p as [|a]; [never_panics|].
    rewrite Set_valid by done. never_panics.
  - destruct p as [|a]; [never_panics|].
    destruct (valid_deref h a Hwf) as [w Hw].
    unfold Map. simpl. simpl in Hw. rewrite Hw.
    destruct fn as [f|]; [never_panics|nil_function_panics].
  - destruct values as [s|]; [|never_panics].
    rewrite ToSlice_result. never_panics.
  - destruct ptrs as [l|]; [|never_panics].
    rewrite FromSlice_result by (by apply Hwf). never_panics.
  - destruct values as [r|]; [|never_panics].
    simpl in Hwf. apply lookup_lt_is_Some_2 in Hwf as [m Hm].
    destruct (ToMap_result range range_perm h r m Hm) as (out & Hrun & _).
    rewrite Hrun. never_panics.
  - destruct ptrs as [m|]; [|never_panics].
    rewrite FromMap_result by (done || by apply Hwf). never_panics.
  - destruct a; never_panics.
  - destruct p as [|a]; [never_panics|].
    destruct (valid_deref h a Hwf) as [w Hw].
    unfold Filter, bind, load, call_func. simpl. simpl in Hw. rewrite Hw.
    destruct pred as [f|]; [|nil_function_panics].
    simpl. destruct (f w); never_panics.
  - destruct p as [|a]; [never_panics|].
    destruct (valid_deref h a Hwf) as [w Hw].
    unfold FlatMap, bind, load, call_func. simpl. simpl in Hw. rewrite Hw.
    destruct fn as [f|]; [never_panics|nil_function_panics].
  - destruct p as [|a]; [never_panics|].
    destruct (valid_deref h a Hwf) as [w Hw].
    unfold Bind, bind, load, call_func. simpl. simpl in Hw. rewrite Hw.
    destruct fn as [f|]; [never_panics|nil_function_panics].
  - destruct p as [|a]; [never_panics|].
    destruct (valid_deref h a Hwf) as [w Hw].
    unfold Apply, bind, load, call_func. simpl. simpl in Hw. rewrite Hw.
    destruct fn as [f|]; [never_panics|nil_function_panics].
  - destruct p as [|a]; [never_panics|].
    destruct (valid_deref h a Hwf) as [w Hw].
    unfold Modify, bind, load, call_func, store. simpl. simpl in Hw, Hwf.
    rewrite Hw.
    destruct fn as [f|]; [|nil_function_panics].
    simpl. rewrite decide_True by done. never_panics.
  - destruct Hwf as [Ha Hb].
    destruct a as [|a], b as [|b]; try never_panics.
    destruct (valid_deref h a Ha) as [wa Hwa].
    destruct (valid_deref h b Hb) as [wb Hwb].
    unfold Swap, bind, load, store. simpl. simpl in Hwa, Hwb, Ha, Hb.
    rewrite Hwa, Hwb. rewrite decide_True by done. simpl.
    rewrite decide_True by (by rewrite length_insert). never_panics.
  - unfold NonZero. destruct (go_eq v zero); never_panics.
  - destruct p as [|a]; [never_panics|].
    destruct (valid_deref h a Hwf) as [w Hw].
    unfold IsZero, bind, load. simpl. simpl in Hw. rewrite Hw. never_panics.
  - destruct p as [|a]; [never_panics|].
    destruct (valid_deref h a Hwf) as [w Hw].
    unfold GetOr, load. simpl. simpl in Hw. rewrite Hw. never_panics.
Qed.

(** Which calls of the typed helpers fail. *)
Lemma typed_call_panics (tc : typed_call carrier)
    (ht : heap (carrier (typed_type tc))) :
  typed_well_formed tc ht →
  typed_panics carrier zero_of range tc ht = true ↔
    ∃ t, tc = TypedMust t NilPtr.
Proof.
  intros Hwf. destruct tc as [t v|t p|t p|t vs|t ps|t vs|t ps]; simpl in *.
  - split; [discriminate|]. intros [? ?]. discriminate.
  - rewrite (From_from_val (zero_of t)) by done.
    split; [discriminate|]. intros [? ?]. discriminate.
  - rewrite (MustFrom_nil_only ht p Hwf). split.
    + intros ->. by exists t.
    + intros [? [= _ ->]]. done.
  - destruct vs as [s|]; [rewrite ToSlice_result|];
      (split; [discriminate|]; intros [? ?]; discriminate).
  - destruct ps as [l|];
      [rewrite FromSlice_result by (by apply Hwf)|];
      (split; [discriminate|]; intros [? ?]; discriminate).
  - destruct vs as [r|].
    + simpl in Hwf. apply lookup_lt_is_Some_2 in Hwf as [m Hm].
      destruct (ToMap_result range range_perm ht r m Hm) as (out & Hrun & _).
      rewrite Hrun. split; [discriminate|]. intros [? ?]. discriminate.
    + split; [discriminate|]. intros [? ?]. discriminate.
  - destruct ps as [m|];
      [rewrite FromMap_result by (done || by apply Hwf)|];
      (split; [discriminate|]; intros [? ?]; discriminate).
Qed.

(** C3, as the code has it.  [MustFrom(p)] returns the pointed-to value
    for a non-nil [p] and panics exactly when [p] is nil, directly or
    through a typed [Must] helper.  It is not the only failure: a call
    that comes to call a nil function panics ([Map], [Filter], [FlatMap],
    [Bind], [Apply], [Modify] on a non-nil pointer with a nil function),
    and [Equal] on two non-nil pointers panics where [==] cannot compare
    the held values.  Every other call of an exported operation, generic
    or typed, returns, for nil pointers and nil collections too; a
    function argument that is called is one that returns. *)
Theorem MustFrom_and_totality (c : call T R) (tc : typed_call carrier)
    h hR (ht : heap (carrier (typed_type tc))) :
  well_formed h c →
  exported tc = true → typed_well_formed tc ht →
  MustFrom NilPtr h = Fail (PanicMsg "ptr: nil pointer passed to MustFrom") ∧
  (∀ p v, deref h p = Some v → MustFrom p h = Ok v h) ∧
  (∀ p, valid_ptr h p → fails (MustFrom p h) = true ↔ p = NilPtr) ∧
  (panics zero go_eq comparable range c h hR = true ↔
     c = CallMustFrom NilPtr ∨ calls_nil_function c ∨
     compares_uncomparable comparable h c) ∧
  (typed_panics carrier zero_of range tc ht = true ↔
     ∃ t, tc = TypedMust t NilPtr).
Proof.
  intros Hwf _ Htwf. split; [done|]. split.
  { intros p v Hd. destruct p; [done|]. by apply load_deref. }
  split; [apply MustFrom_nil_only|].
  split; [by apply generic_call_panics|by apply typed_call_panics].
Qed.
End failure_paths.

(** Where [==] always returns, [Equal_rt] is [Equal]. *)
Lemma Equal_rt_total {T} (go_eq : T → T → bool) (a b : ptr) (h : heap T) :
  Equal_rt go_eq (λ _ _, true) a b h = Equal go_eq a b h.
Proof. reflexivity. Qed.

(** C3, as it is stated, fails: [Map(p, nil)] on a non-nil [p] is a call
    of an exported operation other than [MustFrom] that panics. *)
Lemma Map_nil_function_panics :
  ¬ only_MustFrom_panics (T:=nat) (R:=nat) 0 Nat.eqb (λ _ _, true)
      (λ V, map_to_list).
Proof.
  intros Hclaim.
  assert (Hwf : well_formed (R:=nat) (Heap [1] []) (CallMap (Addr 0) None)).
  { simpl. lia. }
  specialize (Hclaim (CallMap (Addr 0) None) (Heap [1] []) (Heap [] []) Hwf eq_refl).
  discriminate Hclaim.
Qed.

(** * The theorems at concrete inputs *)

Lemma listed_order_perm V (m : gmap string V) : listed_order V m ≡ₚ map_to_list m.
Proof. reflexivity. Qed.

Lemma sample_ptr_map_valid :
  map_Forall (λ _ p, valid_ptr sample_store p) sample_ptr_map.
Proof.
  unfold sample_ptr_map.
  apply map_Forall_insert_2; [simpl; lia|].
  apply map_Forall_insert_2; [done|].
  apply map_Forall_empty.
Qed.

(** [From] and [FromOr] on a pointer to the second cell. *)
Lemma From_FromOr_spec_witness :
  valid_ptr sample_store (Addr 1) ∧
  From 0 (Addr 1) sample_store = Ok 2 sample_store ∧
  FromOr (Addr 1) 9 sample_store = Ok 2 sample_store.
Proof.
  assert (Hv : valid_ptr sample_store (Addr 1)) by (simpl; lia).
  split; [exact Hv|].
  destruct (From_FromOr_spec 0 sample_store (Addr 1) 9 Hv) as (_ & Hval & _).
  apply Hval. reflexivity.
Defined.

(** [Equal] on pointers to the first and the third cell. *)
Lemma Equal_spec_witness :
  deref sample_store (Addr 0) = Some 1 ∧
  deref sample_store (Addr 2) = Some 3 ∧
  Equal Nat.eqb (Addr 0) (Addr 2) sample_store = Ok false sample_store.
Proof.
  split; [reflexivity|]. split; [reflexivity|].
  destruct (Equal_spec Nat.eqb sample_store (Addr 0) (Addr 2))
    as (_ & _ & _ & Hval).
  apply (Hval 1 3); reflexivity.
Defined.

(** [Copy] of a pointer to the first cell, then [Set] through the
    original. *)
Lemma Copy_spec_witness :
  deref sample_store (Addr 0) = Some 1 ∧
  ∃ q h1,
    Copy (Addr 0) sample_store = Ok q h1 ∧ q ≠ Addr 0 ∧
    ∃ h2, Set_ (Addr 0) 100 h1 = Ok true h2 ∧
          deref h2 (Addr 0) = Some 100 ∧ deref h2 q = Some 1.
Proof.
  assert (Hd : deref sample_store (Addr 0) = Some 1) by reflexivity.
  split; [exact Hd|].
  destruct (Copy_spec sample_store (Addr 0) 1 Hd)
    as (_ & q & h1 & Hcopy & _ & Hne & _ & _ & _ & _ & Hset).
  exists q, h1. split; [exact Hcopy|]. split; [exact Hne|].
  exact (Hset 100).
Defined.

(** [ToSlice] on [[]int{1, 2, 3}], then a write through its first
    pointer. *)
Lemma ToSlice_points_into_input_witness :
  valid_slice sample_store (Some sample_slice) ∧ 0 < len sample_slice ∧
  ∃ ps p,
    ToSlice (Some sample_slice) sample_store = Ok (Some ps) sample_store ∧
    ps !! 0 = Some p ∧
    ∃ h2, Set_ p 100 sample_store = Ok true h2 ∧
          elems h2 sample_slice = <[0 := 100]> (elems sample_store sample_slice).
Proof.
  assert (Hv : valid_slice sample_store (Some sample_slice)) by (simpl; lia).
  assert (Hi : 0 < len sample_slice) by (simpl; lia).
  split; [exact Hv|]. split; [exact Hi|].
  destruct (ToSlice_points_into_input sample_store sample_slice 0 100 Hv Hi)
    as (ps & p & Hrun & _ & _ & Hp & _ & _ & _ & h2 & Hset & Helems & _).
  exists ps, p. split; [exact Hrun|]. split; [exact Hp|].
  exists h2. split; [exact Hset|exact Helems].
Defined.

(** The four conversions on the sample slice, a slice of pointers with a
    nil element, the sample map and a map of pointers with a nil value. *)
Lemma conversions_preserve_shape_witness :
  (∀ l, Some [Addr 0; NilPtr] = Some l → Forall (valid_ptr sample_store) l) ∧
  valid_mapref sample_store (Some 0) ∧
  (∀ m, Some sample_ptr_map = Some m →
        map_Forall (λ _ p, valid_ptr sample_store p) m) ∧
  (∃ out h', ToSlice (Some sample_slice) sample_store = Ok out h' ∧
             length <$> out = Some 3) ∧
  (∃ out h', FromSlice 0 (Some [Addr 0; NilPtr]) sample_store = Ok out h' ∧
             len <$> out = Some 2 ∧ valid_slice h' out) ∧
  (∃ out h', ToMap listed_order (Some 0) sample_store = Ok out h' ∧
             dom <$> out = keys sample_store (Some 0)) ∧
  (∃ out h', FromMap 0 listed_order (Some sample_ptr_map) sample_store = Ok out h' ∧
             keys h' out = Some (dom sample_ptr_map)).
Proof.
  assert (Hps : ∀ l, Some [Addr 0; NilPtr] = Some l →
                     Forall (valid_ptr sample_store) l).
  { intros l [= <-]. repeat constructor; simpl; lia. }
  assert (Hvm : valid_mapref sample_store (Some 0)) by (simpl; lia).
  assert (Hpm : ∀ m, Some sample_ptr_map = Some m →
                     map_Forall (λ _ p, valid_ptr sample_store p) m).
  { intros m [= <-]. apply sample_ptr_map_valid. }
  split; [exact Hps|]. split; [exact Hvm|]. split; [exact Hpm|].
  exact (conversions_preserve_shape 0 listed_order listed_order_perm sample_store
           (Some sample_slice) (Some [Addr 0; NilPtr]) (Some 0)
           (Some sample_ptr_map) Hps Hvm Hpm).
Defined.

(** [ToMap] on the sample map, then a write through the pointer under
    ["a"]. *)
Lemma ToMap_fresh_copies_witness :
  maps sample_store !! 0 = Some (<["a" := 1]> (<["b" := 2]> ∅)) ∧
  (<["a" := 1]> (<["b" := 2]> ∅) : gmap string nat) !! "a" = Some 1 ∧
  ∃ (pm : gmap string ptr) h1 a,
    ToMap listed_order (Some 0) sample_store = Ok (Some pm) h1 ∧
    pm !! "a" = Some (Addr a) ∧
    ∃ h2, Set_ (Addr a) 100 h1 = Ok true h2 ∧
          maps h2 !! 0 = Some (<["a" := 1]> (<["b" := 2]> ∅)).
Proof.
  assert (Hr : maps sample_store !! 0 = Some (<["a" := 1]> (<["b" := 2]> ∅)))
    by reflexivity.
  assert (Hk : (<["a" := 1]> (<["b" := 2]> ∅) : gmap string nat) !! "a" = Some 1)
    by apply lookup_insert_eq.
  split; [exact Hr|]. split; [exact Hk|].
  destruct (ToMap_fresh_copies listed_order listed_order_perm sample_store 0 _ "a" 1 100 Hr Hk)
    as (pm & h1 & a & Hrun & Hpm & _ & _ & _ & h2 & Hset & _ & Hmap & _).
  exists pm, h1, a. split; [exact Hrun|]. split; [exact Hpm|].
  exists h2. split; [exact Hset|exact Hmap].
Defined.

(** [MustFrom] on nil, [Equal] on two cells that [==] cannot compare and
    [MustString] on nil, among the calls on the sample stores. *)
Lemma MustFrom_and_totality_witness :
  well_formed sample_store (CallEqual (R:=nat) (Addr 0) (Addr 1)) ∧
  exported (TypedMust (carrier:=sample_carrier) TString NilPtr) = true ∧
  typed_well_formed (TypedMust (carrier:=sample_carrier) TString NilPtr)
    sample_string_store ∧
  MustFrom (Addr 2) sample_store = Ok 3 sample_store ∧
  panics 0 Nat.eqb (λ _ _, false) listed_order
         (CallEqual (R:=nat) (Addr 0) (Addr 1)) sample_store (Heap [] []) = true ∧
  typed_panics sample_carrier sample_zero listed_order
         (TypedMust TString NilPtr) sample_string_store = true.
Proof.
  assert (Hwf : well_formed sample_store (CallEqual (R:=nat) (Addr 0) (Addr 1))).
  { simpl. lia. }
  assert (Hex : exported (TypedMust (carrier:=sample_carrier) TString NilPtr) = true)
    by reflexivity.
  assert (Htwf : typed_well_formed (TypedMust (carrier:=sample_carrier) TString NilPtr)
                   sample_string_store) by exact I.
  split; [exact Hwf|]. split; [exact Hex|]. split; [exact Htwf|].
  destruct (MustFrom_and_totality 0 Nat.eqb (λ _ _, false) listed_order
              listed_order_perm sample_carrier sample_zero
              (CallEqual (Addr 0) (Addr 1)) (TypedMust TString NilPtr)
              sample_store (Heap [] []) sample_string_store Hwf Hex Htwf)
    as (_ & Hval & _ & Hiff & Htyped).
  split; [apply Hval; reflexivity|]. split.
  - apply Hiff. right. right.
    by apply (uncomparable_Equal _ _ _ _ 1 2).
  - apply Htyped. by exists TString.
Defined.

(** * Further properties of the package *)

Section slice_round_trips.
Context {T : Type}.
Variable zero : T.

Implicit Types (h : heap T) (p q : ptr) (v x : T) (vs : slice).

(** A block of cells appended to the store is the slice over it. *)
Lemma elems_fresh_block (c l : list T) ms :
  elems (Heap (c ++ l) ms) (Slice (length c) (length l)) = l.
Proof.
  unfold elems. simpl. rewrite drop_app_length. by rewrite take_ge.
Qed.

Lemma elems_fresh_fmap {A} (f : A → T) (c : list T) (l : list A) ms :
  elems (Heap (c ++ (f <$> l)) ms) (Slice (length c) (length l)) = f <$> l.
Proof. rewrite <- (length_fmap f l). apply elems_fresh_block. Qed.

Lemma elem_ptrs_valid h vs :
  valid_slice h (Some vs) → Forall (valid_ptr h) (elem_ptrs vs).
Proof.
  simpl. intros Hv. apply Forall_lookup. intros i p Hp.
  assert (Hi : i < len vs).
  { apply lookup_lt_Some in Hp. by rewrite elem_ptrs_length in Hp. }
  rewrite elem_ptrs_lookup in Hp by done. injection Hp as <-. simpl. lia.
Qed.

Lemma from_val_elem_ptrs h vs :
  valid_slice h (Some vs) → from_val zero h <$> elem_ptrs vs = elems h vs.
Proof.
  intros Hv. apply list_eq_same_length with (len vs).
  - by apply elems_length.
  - by rewrite length_fmap, elem_ptrs_length.
  - intros i y z Hi Hy Hz.
    rewrite list_lookup_fmap, elem_ptrs_lookup in Hy by done.
    rewrite elems_lookup in Hz by done.
    simpl in Hy. unfold from_val in Hy. simpl in Hy.
    rewrite Hz in Hy. simpl in Hy. congruence.
Qed.

(** X1. [FromSlice] returns a slice whose [i]-th element is the value
    held by the [i]-th pointer, and the zero value where that pointer is
    nil; no cell or map that existed before the call is changed. *)
Theorem FromSlice_elements h (ps : list ptr) :
  Forall (valid_ptr h) ps →
  ∃ s h',
    FromSlice zero (Some ps) h = Ok (Some s) h' ∧
    length (elems h' s) = length ps ∧
    (∀ i, ps !! i = Some NilPtr → elems h' s !! i = Some zero) ∧
    (∀ i p v, ps !! i = Some p → deref h p = Some v →
              elems h' s !! i = Some v) ∧
    (∀ a, a < length (cells h) → cells h' !! a = cells h !! a) ∧
    maps h' = maps h.
Proof.
  intros Hvalid. eexists _, _.
  split; [by apply FromSlice_result|].
  rewrite elems_fresh_fmap.
  split; [by rewrite length_fmap|]. split.
  { intros i Hi. by rewrite list_lookup_fmap, Hi. }
  split.
  { intros i p v Hi Hd. rewrite list_lookup_fmap, Hi. simpl.
    unfold from_val. by rewrite Hd. }
  split; [|done].
  intros a Ha. simpl. by rewrite lookup_app_l.
Qed.

(** X2. The slice returned by [FromSlice] has a backing array of its
    own: an assignment [result[i] = x] changes the value held by none of
    the input pointers. *)
Theorem FromSlice_result_is_fresh h (ps : list ptr) i x :
  Forall (valid_ptr h) ps → i < length ps →
  ∃ s h' q h2,
    FromSlice zero (Some ps) h = Ok (Some s) h' ∧
    index_addr s i h' = Ok q h' ∧
    ¬ valid_ptr h q ∧
    Set_ q x h' = Ok true h2 ∧
    elems h2 s !! i = Some x ∧
    ∀ p, p ∈ ps → deref h2 p = deref h p.
Proof.
  intros Hvalid Hi.
  exists (Slice (length (cells h)) (length ps)),
         (Heap (cells h ++ (from_val zero h <$> ps)) (maps h)),
         (Addr (length (cells h) + i)).
  eexists.
  split; [by apply FromSlice_result|].
  split; [unfold index_addr; simpl; by rewrite decide_True|].
  split; [simpl; lia|].
  split.
  { apply Set_valid. simpl. rewrite length_app, length_fmap. lia. }
  split.
  { rewrite elems_lookup by done. simpl.
    apply list_lookup_insert_eq. rewrite length_app, length_fmap. lia. }
  intros p Hp. destruct p as [|a]; [done|].
  rewrite Forall_forall in Hvalid. specialize (Hvalid _ Hp). simpl in Hvalid.
  simpl. rewrite list_lookup_insert_ne by lia. by rewrite lookup_app_l.
Qed.

Lemma slice_round_trip_result h vs :
  valid_slice h (Some vs) →
  (let* ps := ToSlice (Some vs) in FromSlice zero ps) h
  = Ok (Some (Slice (length (cells h)) (len vs)))
       (Heap (cells h ++ elems h vs) (maps h)).
Proof.
  intros Hv.
  erewrite bind_Ok by apply ToSlice_result.
  rewrite FromSlice_result by (by apply elem_ptrs_valid).
  by rewrite from_val_elem_ptrs, elem_ptrs_length.
Qed.

(** X3. [FromSlice(ToSlice(values))] is a copy of [values]: a slice
    with the same elements in the same order, stored in cells that did
    not exist before, while [values] itself keeps its elements. *)
Theorem FromSlice_ToSlice_copies h vs :
  valid_slice h (Some vs) →
  ∃ s h',
    (let* ps := ToSlice (Some vs) in FromSlice zero ps) h = Ok (Some s) h' ∧
    elems h' s = elems h vs ∧
    elems h' vs = elems h vs ∧
    len s = len vs ∧
    base vs + len vs ≤ base s.
Proof.
  intros Hv. eexists _, _.
  split; [by apply slice_round_trip_result|].
  pose proof (elems_length h vs Hv) as Hlen. simpl in Hv.
  split.
  { rewrite <- Hlen at 1. apply elems_fresh_block. }
  split; [|simpl; lia].
  unfold elems. simpl. rewrite drop_app_le by lia.
  rewrite take_app_le; [done|]. rewrite length_drop. lia.
Qed.

(** X4. The other way round is not a round trip:
    [ToSlice(FromSlice(ptrs))] has the length of [ptrs], but each of its
    pointers is non-nil and new; it holds the value of the original
    pointer, and the zero value where the original was nil. *)
Theorem ToSlice_FromSlice_never_nil h (ps : list ptr) :
  Forall (valid_ptr h) ps →
  ∃ qs h',
    (let* s := FromSlice zero (Some ps) in ToSlice s) h = Ok (Some qs) h' ∧
    length qs = length ps ∧
    ∀ i p, ps !! i = Some p →
      ∃ q, qs !! i = Some q ∧ q ≠ NilPtr ∧ ¬ valid_ptr h q ∧
           deref h' q = Some (default zero (deref h p)).
Proof.
  intros Hvalid. eexists _, _. split.
  { erewrite bind_Ok by (by apply FromSlice_result). apply ToSlice_result. }
  split; [by rewrite elem_ptrs_length|].
  intros i p Hp. pose proof (lookup_lt_Some _ _ _ Hp) as Hi.
  exists (Addr (length (cells h) + i)).
  split; [by apply (elem_ptrs_lookup (Slice _ _))|].
  split; [done|]. split; [simpl; lia|].
  simpl. rewrite lookup_app_r by lia.
  replace (length (cells h) + i - length (cells h)) with i by lia.
  by rewrite list_lookup_fmap, Hp.
Qed.
End slice_round_trips.

Section map_round_trips.
Context {T : Type}.
Variable zero : T.
Variable range : forall V : Type, gmap string V -> list (string * V).
Hypothesis range_perm : ∀ V (m : gmap string V), range V m ≡ₚ map_to_list m.

Implicit Types (h : heap T) (p q : ptr) (v x : T) (k : string).

(** What the pointers of [ToMap] are, key by key. *)
Lemma ToMap_pointers h r (m : gmap string T) :
  maps h !! r = Some m →
  ∃ (pm : gmap string ptr) h1,
    ToMap range (Some r) h = Ok (Some pm) h1 ∧
    maps h1 = maps h ∧
    (∀ a, a < length (cells h) → cells h1 !! a = cells h !! a) ∧
    dom pm = dom m ∧
    (∀ k q, pm !! k = Some q →
            q ≠ NilPtr ∧ valid_ptr h1 q ∧ ¬ valid_ptr h q ∧
            deref h1 q = m !! k) ∧
    (∀ k k' q, pm !! k = Some q → pm !! k' = Some q → k = k').
Proof.
  intros Hr.
  destruct (ToMap_result range range_perm h r m Hr) as (pm & Hrun & Hdom & Hlook).
  exists pm, (Heap (cells h ++ (range T m).*2) (maps h)).
  assert (Hidx : ∀ k q, pm !! k = Some q →
            ∃ i v, range T m !! i = Some (k, v) ∧ m !! k = Some v ∧
                   q = Addr (length (cells h) + i)).
  { intros k q Hq.
    assert (Hk : is_Some (m !! k)).
    { apply elem_of_dom. rewrite <- Hdom. apply elem_of_dom. by exists q. }
    destruct Hk as [v Hv].
    assert (Hin : (k, v) ∈ range T m) by (by apply range_lookup).
    apply list_elem_of_lookup_1 in Hin as [i Hi].
    exists i, v. split; [done|]. split; [done|].
    rewrite (Hlook i k v Hi) in Hq. by injection Hq as <-. }
  split; [done|]. split; [done|].
  split; [intros a Ha; simpl; by rewrite lookup_app_l|].
  split; [done|]. split.
  - intros k q Hq. destruct (Hidx k q Hq) as (i & v & Hi & Hv & ->).
    pose proof (lookup_lt_Some _ _ _ Hi) as Hilt.
    split; [done|]. simpl. rewrite length_app, length_fmap.
    split; [lia|]. split; [lia|].
    rewrite lookup_app_r by lia.
    replace (length (cells h) + i - length (cells h)) with i by lia.
    by rewrite list_lookup_fmap, Hi, Hv.
  - intros k k' q Hq Hq'.
    destruct (Hidx k q Hq) as (i & v & Hi & _ & ->).
    destruct (Hidx k' _ Hq') as (j & v' & Hj & _ & Heq).
    injection Heq as Heq. assert (i = j) by lia. subst j. congruence.
Qed.

(** X5. [ToMap] gives every key a pointer of its own: the result has
    exactly the keys of the input map, and under each key a non-nil
    pointer that did not exist before the call and that holds the value
    of that key; pointers under different keys are different, even where
    the values are equal.  The call changes no cell and no map that
    existed before. *)
Theorem ToMap_pointers_distinct h r (m : gmap string T) :
  maps h !! r = Some m →
  ∃ (pm : gmap string ptr) h1,
    ToMap range (Some r) h = Ok (Some pm) h1 ∧
    dom pm = dom m ∧
    (∀ k v, m !! k = Some v →
            ∃ q, pm !! k = Some q ∧ q ≠ NilPtr ∧ ¬ valid_ptr h q ∧
                 deref h1 q = Some v) ∧
    (∀ k k' q, pm !! k = Some q → pm !! k' = Some q → k = k') ∧
    maps h1 = maps h ∧
    (∀ a, a < length (cells h) → cells h1 !! a = cells h !! a).
Proof.
  intros Hr.
  destruct (ToMap_pointers h r m Hr)
    as (pm & h1 & Hrun & Hmaps & Hframe & Hdom & Hptr & Hinj).
  exists pm, h1. split; [done|]. split; [done|].
  split; [|by repeat split].
  intros k v Hk.
  assert (Hq : is_Some (pm !! k)).
  { apply elem_of_dom. rewrite Hdom. apply elem_of_dom. by exists v. }
  destruct Hq as [q Hq]. exists q. split; [done|].
  destruct (Hptr k q Hq) as (Hne & _ & Hfresh & Hd).
  split; [done|]. split; [done|]. by rewrite Hd.
Qed.

(** X6. [FromMap] builds a new map object with the keys of its
    argument: under each key it stores the value held by the pointer, and
    the zero value where the pointer is nil.  Cells and earlier map
    objects are left as they were. *)
Theorem FromMap_entries h (pm : gmap string ptr) :
  map_Forall (λ _ p, valid_ptr h p) pm →
  ∃ r h' (m : gmap string T),
    FromMap zero range (Some pm) h = Ok (Some r) h' ∧
    ¬ valid_mapref h (Some r) ∧
    maps h' !! r = Some m ∧
    (∀ k, pm !! k = Some NilPtr → m !! k = Some zero) ∧
    (∀ k p v, pm !! k = Some p → deref h p = Some v → m !! k = Some v) ∧
    (∀ k, pm !! k = None → m !! k = None) ∧
    cells h' = cells h ∧
    (∀ r0, r0 < length (maps h) → maps h' !! r0 = maps h !! r0).
Proof.
  intros Hvalid.
  exists (length (maps h)),
         (Heap (cells h) (maps h ++ [from_val zero h <$> pm])),
         (from_val zero h <$> pm).
  split; [by apply FromMap_result|].
  split; [simpl; lia|].
  split; [simpl; by rewrite lookup_app_r, Nat.sub_diag|].
  split; [intros k Hk; by rewrite lookup_fmap, Hk|].
  split.
  { intros k p v Hk Hd. rewrite lookup_fmap, Hk. simpl.
    unfold from_val. by rewrite Hd. }
  split; [intros k Hk; by rewrite lookup_fmap, Hk|].
  split; [done|].
  intros r0 Hr0. simpl. by rewrite lookup_app_l.
Qed.

(** X7. [FromMap(ToMap(m))] is a copy of [m]: a map object different
    from [m] with exactly the entries of [m], while [m] stays as it
    was. *)
Theorem FromMap_ToMap_copies h r (m : gmap string T) :
  maps h !! r = Some m →
  ∃ r' h',
    (let* pm := ToMap range (Some r) in FromMap zero range pm) h
    = Ok (Some r') h' ∧
    r' ≠ r ∧
    maps h' !! r' = Some m ∧
    maps h' !! r = Some m.
Proof.
  intros Hr.
  destruct (ToMap_pointers h r m Hr)
    as (pm & h1 & Hrun & Hmaps & _ & Hdom & Hptr & _).
  assert (Hvalid : map_Forall (λ _ p, valid_ptr h1 p) pm).
  { intros k q Hq. by destruct (Hptr k q Hq) as (_ & ? & _). }
  assert (Hcopy : from_val zero h1 <$> pm = m).
  { apply map_eq. intros k. rewrite lookup_fmap.
    destruct (pm !! k) as [q|] eqn:Hq; simpl.
    - destruct (Hptr k q Hq) as (_ & _ & _ & Hd).
      unfold from_val. rewrite Hd.
      destruct (m !! k) as [v|] eqn:Hv; [done|].
      apply not_elem_of_dom in Hv. rewrite <- Hdom in Hv.
      by apply not_elem_of_dom in Hv; rewrite Hv in Hq.
    - symmetry. apply not_elem_of_dom. rewrite <- Hdom.
      by apply not_elem_of_dom. }
  pose proof (lookup_lt_Some _ _ _ Hr) as Hlt.
  eexists _, _. split.
  { erewrite bind_Ok by exact Hrun. by apply FromMap_result. }
  rewrite Hcopy, Hmaps. simpl.
  split; [lia|]. split.
  - by rewrite lookup_app_r, Nat.sub_diag.
  - by rewrite lookup_app_l.
Qed.

(** X8. The other way round, [ToMap(FromMap(ptrs))] keeps the keys but
    not the nils: every key of [ptrs] gets a non-nil pointer that holds
    the value of the original pointer, or the zero value where the
    original was nil. *)
Theorem ToMap_FromMap_never_nil h (pm : gmap string ptr) :
  map_Forall (λ _ p, valid_ptr h p) pm →
  ∃ (qm : gmap string ptr) h',
    (let* r := FromMap zero range (Some pm) in ToMap range r) h
    = Ok (Some qm) h' ∧
    dom qm = dom pm ∧
    ∀ k p, pm !! k = Some p →
      ∃ q, qm !! k = Some q ∧ q ≠ NilPtr ∧
           deref h' q = Some (default zero (deref h p)).
Proof.
  intros Hvalid.
  set (h1 := Heap (cells h) (maps h ++ [from_val zero h <$> pm])).
  assert (Hr : maps h1 !! length (maps h) = Some (from_val zero h <$> pm)).
  { simpl. by rewrite lookup_app_r, Nat.sub_diag. }
  destruct (ToMap_pointers h1 _ _ Hr)
    as (qm & h' & Hrun & _ & _ & Hdom & Hptr & _).
  exists qm, h'. split.
  { erewrite bind_Ok by (by apply FromMap_result). exact Hrun. }
  rewrite dom_fmap_L in Hdom. split; [done|].
  intros k p Hp.
  assert (Hq : is_Some (qm !! k)).
  { apply elem_of_dom. rewrite Hdom. apply elem_of_dom. by exists p. }
  destruct Hq as [q Hq]. exists q. split; [done|].
  destruct (Hptr k q Hq) as (Hne & _ & _ & Hd).
  split; [done|]. by rewrite Hd, lookup_fmap, Hp.
Qed.
End map_round_trips.

Section pointer_operations.
Context {T : Type}.
Variable zero : T.
Variable go_eq : T -> T -> bool.

Implicit Types (h : heap T) (p q : ptr) (v x y d : T).

(** X9. [To] returns a pointer that did not exist before, whatever the
    value: it is non-nil, differs from every pointer of the store, and the
    cells and maps of the store keep their contents.  Two calls with the
    same value give two different pointers, and a write through the first
    is not seen through the second. *)
Theorem To_is_fresh h v x :
  ∃ p h1 p' h2 h3,
    To v h = Ok p h1 ∧ p ≠ NilPtr ∧ ¬ valid_ptr h p ∧
    (∀ a, a < length (cells h) → cells h1 !! a = cells h !! a) ∧
    maps h1 = maps h ∧
    To v h1 = Ok p' h2 ∧ p' ≠ p ∧
    Set_ p x h2 = Ok true h3 ∧
    deref h3 p = Some x ∧ deref h3 p' = Some v.
Proof.
  eexists _, _, _, _, _.
  split; [reflexivity|]. split; [done|]. split; [simpl; lia|].
  split; [intros a Ha; simpl; by rewrite lookup_app_l|].
  split; [done|]. split; [reflexivity|]. simpl.
  split; [intros [= Heq]; rewrite length_app in Heq; simpl in Heq; lia|].
  split.
  { apply Set_valid. simpl. rewrite !length_app. simpl. lia. }
  simpl. split.
  - apply list_lookup_insert_eq. rewrite !length_app. simpl. lia.
  - rewrite list_lookup_insert_ne by (rewrite length_app; simpl; lia).
    by rewrite lookup_app_r, Nat.sub_diag.
Qed.

(** X10. [Set] on a non-nil pointer returns true and changes the cell
    of that pointer only: the pointer then holds the new value, every
    other pointer holds what it held, and no map changes.  On nil it
    returns false and leaves the store as it is. *)
Theorem Set_changes_one_cell h p x :
  valid_ptr h p →
  ∃ h',
    Set_ p x h = Ok (negb (is_nil p)) h' ∧
    (p = NilPtr → h' = h) ∧
    (p ≠ NilPtr → deref h' p = Some x) ∧
    (∀ q, q ≠ p → deref h' q = deref h q) ∧
    maps h' = maps h.
Proof.
  intros Hv. destruct p as [|a].
  - exists h. by repeat split.
  - simpl in Hv. eexists. split; [by apply Set_valid|]. simpl.
    split; [done|].
    split; [intros _; by apply list_lookup_insert_eq|].
    split; [|done].
    intros [|b] Hne; [done|]. simpl.
    apply list_lookup_insert_ne. congruence.
Qed.

(** X11. What [Set] stores is what the reading operations return
    afterwards: after [Set(p, x)] on a non-nil pointer, [From(p)],
    [FromOr(p, d)] and [MustFrom(p)] all return [x]. *)
Theorem Set_then_read h p x d :
  valid_ptr h p → p ≠ NilPtr →
  ∃ h',
    Set_ p x h = Ok true h' ∧
    From zero p h' = Ok x h' ∧
    FromOr p d h' = Ok x h' ∧
    MustFrom p h' = Ok x h'.
Proof.
  intros Hv Hne. destruct p as [|a]; [done|]. simpl in Hv.
  eexists. split; [by apply Set_valid|].
  unfold From, FromOr, MustFrom, load. simpl.
  by rewrite list_lookup_insert_eq.
Qed.

(** X12. The last write wins, and writing back the value a pointer
    holds changes nothing: [Set(p, x)] followed by [Set(p, y)] leaves
    the store that [Set(p, y)] alone leaves, and [Set(p, From(p))]
    leaves the store as it is. *)
Theorem Set_overwrites h p x y :
  valid_ptr h p →
  (let* _ := Set_ p x in Set_ p y) h = Set_ p y h ∧
  (let* v := From zero p in Set_ p v) h = Ok (negb (is_nil p)) h.
Proof.
  intros Hv. destruct p as [|a]; [done|]. simpl in Hv.
  destruct (lookup_lt_is_Some_2 _ _ Hv) as [v Hlk].
  split.
  - erewrite bind_Ok by (by apply Set_valid).
    rewrite !Set_valid by (simpl; by rewrite ?length_insert).
    simpl. by rewrite list_insert_insert_eq.
  - erewrite bind_Ok by (apply From_from_val; exact Hv).
    rewrite Set_valid by done.
    unfold from_val. simpl. rewrite Hlk. simpl.
    rewrite list_insert_id by done. by destruct h.
Qed.

Lemma Equal_values h a b x y :
  deref h a = Some x → deref h b = Some y →
  Equal go_eq a b h = Ok (go_eq x y) h.
Proof.
  intros Ha Hb. destruct a as [|a], b as [|b]; try done.
  unfold Equal, bind. simpl. simpl in Ha, Hb. by rewrite Ha, Hb.
Qed.

(** X13. [Equal] compares what the pointers hold, not the pointers:
    for two pointers made by [To], which are always different,
    [Equal(To(x), To(y))] is [x == y]. *)
Theorem Equal_compares_values h x y :
  ∃ a b h2,
    (let* a := To x in let* b := To y in ret (a, b)) h = Ok (a, b) h2 ∧
    a ≠ b ∧
    Equal go_eq a b h2 = Ok (go_eq x y) h2.
Proof.
  eexists _, _, _. split; [reflexivity|]. simpl.
  split; [intros [= Heq]; rewrite length_app in Heq; simpl in Heq; lia|].
  unfold Equal, bind, load. simpl.
  rewrite lookup_app_l by (rewrite length_app; simpl; lia).
  rewrite lookup_app_r, Nat.sub_diag by done. simpl.
  rewrite length_app. simpl.
  replace (length (cells h) + 1) with (length (cells h ++ [x]))
    by (rewrite length_app; simpl; lia).
  by rewrite lookup_app_r, Nat.sub_diag.
Qed.

(** X14. Where [==] is symmetric at [T], [Equal] is symmetric:
    [Equal(a, b)] and [Equal(b, a)] give the same result, for nil and
    non-nil pointers alike. *)
Theorem Equal_symmetric h a b :
  (∀ x y, go_eq x y = go_eq y x) →
  valid_ptr h a → valid_ptr h b →
  Equal go_eq a b h = Equal go_eq b a h.
Proof.
  intros Hsym Ha Hb. destruct a as [|a], b as [|b]; try done.
  destruct (valid_deref h a Ha) as [x Hx].
  destruct (valid_deref h b Hb) as [y Hy].
  unfold Equal, bind, load. simpl. simpl in Hx, Hy.
  repeat (first [rewrite Hx | rewrite Hy]; simpl).
  by rewrite Hsym.
Qed.

(** X15. A non-nil pointer and its [Copy] are different pointers, the
    copy being new to the store, and [Equal] compares them by value:
    [Equal(p, Copy(p))] is [v == v] for the value [v] that [p] holds.
    [Copy(nil)] is nil and [Equal(nil, Copy(nil))] is true. *)
Theorem Equal_Copy h p :
  valid_ptr h p →
  ∃ q h1,
    Copy p h = Ok q h1 ∧
    is_nil q = is_nil p ∧
    (p ≠ NilPtr → q ≠ p ∧ ¬ valid_ptr h q) ∧
    Equal go_eq p q h1
    = Ok (match deref h p with Some v => go_eq v v | None => true end) h1.
Proof.
  intros Hv. destruct p as [|a].
  - by exists NilPtr, h.
  - destruct (valid_deref h a Hv) as [v Hd]. simpl in Hd, Hv.
    eexists _, _. split; [by apply Copy_valid|].
    split; [done|]. split.
    { intros _. split; [intros [= Heq]; lia|simpl; lia]. }
    change (deref h (Addr a)) with (cells h !! a). rewrite Hd.
    apply Equal_values; simpl.
    + by rewrite lookup_app_l.
    + by rewrite lookup_app_r, Nat.sub_diag.
Qed.

(** X16. [Coalesce] of a concatenation is [Coalesce] of the first part
    unless that is nil, in which case it is [Coalesce] of the second;
    so nested calls flatten: [Coalesce(Coalesce(xs...), Coalesce(ys...))]
    is [Coalesce(xs..., ys...)]. *)
Theorem Coalesce_app (xs ys : list ptr) :
  Coalesce (xs ++ ys)
  = (if is_nil (Coalesce xs) then Coalesce ys else Coalesce xs) ∧
  Coalesce [Coalesce xs; Coalesce ys] = Coalesce (xs ++ ys).
Proof.
  assert (Happ : Coalesce (xs ++ ys)
                 = if is_nil (Coalesce xs) then Coalesce ys else Coalesce xs).
  { induction xs as [|p xs IH]; [done|]. simpl. by destruct p. }
  split; [done|]. rewrite Happ. simpl.
  destruct (Coalesce xs); simpl; [|done]. by destruct (Coalesce ys).
Qed.

(** X17. [Coalesce] never makes a pointer up: a non-nil result is one
    of the arguments, so it is a pointer of the store when they are; and
    the result is nil only when every argument is nil. *)
Theorem Coalesce_returns_an_argument h (ptrs : list ptr) :
  Forall (valid_ptr h) ptrs →
  valid_ptr h (Coalesce ptrs) ∧
  (Coalesce ptrs ≠ NilPtr → Coalesce ptrs ∈ ptrs) ∧
  (Coalesce ptrs = NilPtr ↔ Forall (λ q, q = NilPtr) ptrs).
Proof.
  induction 1 as [|p ptrs Hp Hrest IH]; [by repeat split|].
  destruct IH as (IHv & IHin & IHnil).
  destruct p as [|a]; simpl.
  - split; [done|]. split; [intros Hne; right; by apply IHin|].
    rewrite IHnil. split; [by constructor|]. by inversion 1.
  - split; [done|]. split; [intros _; by left|].
    split; [done|]. by inversion 1.
Qed.

(** X18. A default appended to the arguments of [Coalesce] makes the
    extraction safe: with [q = To(d)], [MustFrom(Coalesce(ptrs..., q))]
    does not panic, and it returns, as [From] does, what
    [FromOr(Coalesce(ptrs...), d)] returns. *)
Theorem FromOr_by_Coalesce h (ptrs : list ptr) d :
  Forall (valid_ptr h) ptrs →
  ∃ v q h1,
    FromOr (Coalesce ptrs) d h = Ok v h ∧
    To d h = Ok q h1 ∧
    MustFrom (Coalesce (ptrs ++ [q])) h1 = Ok v h1 ∧
    From zero (Coalesce (ptrs ++ [q])) h1 = Ok v h1.
Proof.
  intros Hvalid.
  assert (Happ : ∀ q, Coalesce (ptrs ++ [q])
                 = if is_nil (Coalesce ptrs) then Coalesce [q] else Coalesce ptrs).
  { intros q. induction ptrs as [|p ps IH]; [done|].
    simpl. destruct p; [|done]. apply IH. by inversion Hvalid. }
  assert (Hc : valid_ptr h (Coalesce ptrs)).
  { clear Happ. induction Hvalid as [|p ps Hp _ IH]; [done|]. by destruct p. }
  destruct (Coalesce ptrs) as [|a] eqn:Hco.
  - exists d, (Addr (length (cells h))), (Heap (cells h ++ [d]) (maps h)).
    split; [done|]. split; [done|]. rewrite Happ. simpl.
    unfold MustFrom, From, load. simpl.
    by rewrite lookup_app_r, Nat.sub_diag.
  - destruct (valid_deref h a Hc) as [v Hd]. simpl in Hd, Hc.
    exists v, (Addr (length (cells h))), (Heap (cells h ++ [d]) (maps h)).
    split; [unfold FromOr, load; simpl; by rewrite Hd|].
    split; [done|]. rewrite Happ. simpl.
    unfold MustFrom, From, load. simpl.
    by rewrite lookup_app_l, Hd.
Qed.

(** X19. [IsNil] tells which results are nil: never the result of
    [To]; the result of [Copy] exactly when its argument is; and the
    result of [Coalesce] exactly when all its arguments are. *)
Theorem IsNil_of_results h p v (ptrs : list ptr) :
  valid_ptr h p →
  (let* q := To v in IsNil q) h = Ok false (Heap (cells h ++ [v]) (maps h)) ∧
  (∃ q h1, Copy p h = Ok q h1 ∧ IsNil (T:=T) q h1 = Ok (is_nil p) h1) ∧
  IsNil (T:=T) (Coalesce ptrs) h = Ok (forallb is_nil ptrs) h.
Proof.
  intros Hv. split; [done|]. split.
  - destruct p as [|a]; [by exists NilPtr, h|].
    destruct (valid_deref h a Hv) as [w Hw].
    eexists _, _. split; [by apply Copy_valid|done].
  - unfold IsNil, ret. f_equal.
    induction ptrs as [|q qs IH]; [done|]. simpl. by destruct q.
Qed.
End pointer_operations.

Lemma Map_valid {T R} (hT : heap T) (hR : heap R) a v (f : T → R) :
  cells hT !! a = Some v →
  Map (Addr a) (Some f) hT hR
  = Ok (Addr (length (cells hR))) (Heap (cells hR ++ [f v]) (maps hR)).
Proof. intros Ha. unfold Map, load. simpl. by rewrite Ha. Qed.

Section map_function.
Context {T R U : Type}.
Variable zeroR : R.

Implicit Types (hT : heap T) (hR : heap R) (hU : heap U) (p q : ptr).

(** X20. [Map] on nil returns nil without calling the function, be it
    nil itself, and allocates nothing.  On a non-nil pointer holding [v]
    it returns a new non-nil pointer holding [fn(v)]; so extracting from
    the result with [From] gives [fn(v)], or the zero value of the result
    type when the argument was nil.  Earlier cells keep their values. *)
Theorem Map_applies_function hT hR p (f : T → R) :
  valid_ptr hT p →
  (∀ fn : func T R, Map NilPtr fn hT hR = Ok NilPtr hR) ∧
  ∃ q hR',
    Map p (Some f) hT hR = Ok q hR' ∧
    is_nil q = is_nil p ∧
    (q ≠ NilPtr → ¬ valid_ptr hR q) ∧
    From zeroR q hR'
    = Ok (match deref hT p with Some v => f v | None => zeroR end) hR' ∧
    (∀ a, a < length (cells hR) → cells hR' !! a = cells hR !! a).
Proof.
  intros Hv. split; [done|]. destruct p as [|a].
  - exists NilPtr, hR. by repeat split.
  - destruct (valid_deref hT a Hv) as [v Hd]. simpl in Hd.
    eexists _, _. split; [by apply Map_valid|].
    split; [done|]. split; [simpl; lia|]. split.
    + unfold From, load. simpl. rewrite Hd.
      by rewrite lookup_app_r, Nat.sub_diag.
    + intros b Hb. simpl. by rewrite lookup_app_l.
Qed.

End map_function.

(** X22. [Map] with the identity function is [Copy]: on the same store
    both return the same pointer and leave the same store. *)
Theorem Map_identity_is_Copy {T} (h : heap T) (p : ptr) :
  valid_ptr h p →
  Map p (Some id) h h = Copy p h.
Proof.
  intros Hv. destruct p as [|a]; [done|].
  destruct (valid_deref h a Hv) as [v Hd]. simpl in Hd.
  by rewrite (Map_valid h h a v id Hd), (Copy_valid h a v Hd).
Qed.

Section typed_helpers.
Variable range : forall V : Type, gmap string V -> list (string * V).
Hypothesis range_perm : ∀ V (m : gmap string V), range V m ≡ₚ map_to_list m.

(** X23. The typed helpers extract the zero value of their type from
    nil: [ToString(nil)] is the empty string, [ToInt(nil)] is [0] and
    [ToBool(nil)] is [false]; and each reads back what its constructor
    stored: [ToString(String(s)) == s], and so for [Int] and [Bool]. *)
Theorem typed_helpers_extract
    (hs : heap string) (hz : heap Z) (hb : heap bool)
    (s : string) (z : Z) (b : bool) :
  Typed.ToString NilPtr hs = Ok EmptyString hs ∧
  Typed.ToInt NilPtr hz = Ok 0%Z hz ∧
  Typed.ToBool NilPtr hb = Ok false hb ∧
  (∃ h', (let* p := Typed.String s in Typed.ToString p) hs = Ok s h') ∧
  (∃ h', (let* p := Typed.Int z in Typed.ToInt p) hz = Ok z h') ∧
  (∃ h', (let* p := Typed.Bool b in Typed.ToBool p) hb = Ok b h').
Proof.
  assert (Hrt : ∀ A (zero : A) (h : heap A) (v : A),
            ∃ h', (let* p := To v in From zero p) h = Ok v h').
  { intros A zero h v. eexists. unfold bind, To, From, load. simpl.
    by rewrite lookup_app_r, Nat.sub_diag. }
  split; [done|]. split; [done|]. split; [done|].
  split; [apply Hrt|]. split; apply Hrt.
Qed.

(** X24. The typed collection helpers turn nil pointers into the zero
    value of their type: [ToIntSlice] stores [0] at the index of a nil
    pointer and [ToStringMap] stores the empty string under the key of a
    nil pointer; and [ToIntSlice(IntSlice(vs))] has the elements of
    [vs]. *)
Theorem typed_collections_extract
    (hz : heap Z) (hs : heap string)
    (ps : list ptr) (pm : gmap string ptr) (vs : slice) :
  Forall (valid_ptr hz) ps →
  map_Forall (λ _ p, valid_ptr hs p) pm →
  valid_slice hz (Some vs) →
  (∃ s h', Typed.ToIntSlice (Some ps) hz = Ok (Some s) h' ∧
           ∀ i, ps !! i = Some NilPtr → elems h' s !! i = Some 0%Z) ∧
  (∃ r h' (m : gmap string string),
      Typed.ToStringMap range (Some pm) hs = Ok (Some r) h' ∧
      maps h' !! r = Some m ∧ dom m = dom pm ∧
      ∀ k, pm !! k = Some NilPtr → m !! k = Some EmptyString) ∧
  (∃ s h', (let* qs := Typed.IntSlice (Some vs) in Typed.ToIntSlice qs) hz
           = Ok (Some s) h' ∧
           elems h' s = elems hz vs).
Proof.
  intros Hps Hpm Hvs. split; [|split].
  - eexists _, _. split; [by apply FromSlice_result|].
    intros i Hi. rewrite elems_fresh_fmap. by rewrite list_lookup_fmap, Hi.
  - eexists _, _, _.
    split; [by apply FromMap_result|]. simpl.
    split; [by rewrite lookup_app_r, Nat.sub_diag|].
    split; [by rewrite dom_fmap_L|].
    intros k Hk. by rewrite lookup_fmap, Hk.
  - eexists _, _.
    split; [by apply (slice_round_trip_result 0%Z)|].
    rewrite <- (elems_length hz vs Hvs) at 1. apply elems_fresh_block.
Qed.
End typed_helpers.

(** * The further properties at concrete inputs *)

Lemma sample_ptrs_valid : Forall (valid_ptr sample_store) [Addr 0; NilPtr].
Proof. repeat constructor; simpl; lia. Qed.

Lemma sample_map_lookup :
  maps sample_store !! 0 = Some (<["a" := 1]> (<["b" := 2]> ∅)).
Proof. reflexivity. Qed.

Lemma FromSlice_elements_witness :
  Forall (valid_ptr sample_store) [Addr 0; NilPtr] ∧
  ∃ s h',
    FromSlice 0 (Some [Addr 0; NilPtr]) sample_store = Ok (Some s) h' ∧
    elems h' s !! 0 = Some 1 ∧ elems h' s !! 1 = Some 0.
Proof.
  split; [exact sample_ptrs_valid|].
  destruct (FromSlice_elements 0 sample_store _ sample_ptrs_valid)
    as (s & h' & Hrun & _ & Hnil & Hval & _).
  exists s, h'. split; [exact Hrun|]. split.
  - apply (Hval 0 (Addr 0) 1); reflexivity.
  - apply Hnil. reflexivity.
Defined.

Lemma FromSlice_result_is_fresh_witness :
  Forall (valid_ptr sample_store) [Addr 0; NilPtr] ∧ 1 < 2 ∧
  ∃ s h' q h2,
    FromSlice 0 (Some [Addr 0; NilPtr]) sample_store = Ok (Some s) h' ∧
    index_addr s 1 h' = Ok q h' ∧
    Set_ q 9 h' = Ok true h2 ∧
    deref h2 (Addr 0) = Some 1.
Proof.
  assert (Hi : 1 < 2) by lia.
  split; [exact sample_ptrs_valid|]. split; [exact Hi|].
  destruct (FromSlice_result_is_fresh 0 sample_store _ 1 9 sample_ptrs_valid Hi)
    as (s & h' & q & h2 & Hrun & Hidx & _ & Hset & _ & Hframe).
  exists s, h', q, h2. split; [exact Hrun|]. split; [exact Hidx|].
  split; [exact Hset|]. apply (Hframe (Addr 0)). left.
Defined.

Lemma FromSlice_ToSlice_copies_witness :
  valid_slice sample_store (Some sample_slice) ∧
  ∃ s h',
    (let* ps := ToSlice (Some sample_slice) in FromSlice 0 ps) sample_store
    = Ok (Some s) h' ∧
    elems h' s = elems sample_store sample_slice.
Proof.
  assert (Hv : valid_slice sample_store (Some sample_slice)) by (simpl; lia).
  split; [exact Hv|].
  destruct (FromSlice_ToSlice_copies 0 sample_store sample_slice Hv)
    as (s & h' & Hrun & Hcopy & _).
  exists s, h'. split; [exact Hrun|exact Hcopy].
Defined.

Lemma ToSlice_FromSlice_never_nil_witness :
  Forall (valid_ptr sample_store) [Addr 0; NilPtr] ∧
  ∃ qs h',
    (let* s := FromSlice 0 (Some [Addr 0; NilPtr]) in ToSlice s) sample_store
    = Ok (Some qs) h' ∧
    ∃ q, qs !! 1 = Some q ∧ q ≠ NilPtr ∧ deref h' q = Some 0.
Proof.
  split; [exact sample_ptrs_valid|].
  destruct (ToSlice_FromSlice_never_nil 0 sample_store _ sample_ptrs_valid)
    as (qs & h' & Hrun & _ & Hptr).
  exists qs, h'. split; [exact Hrun|].
  destruct (Hptr 1 NilPtr eq_refl) as (q & Hq & Hne & _ & Hd).
  exists q. split; [exact Hq|]. split; [exact Hne|exact Hd].
Defined.

Lemma ToMap_pointers_distinct_witness :
  maps sample_store !! 0 = Some (<["a" := 1]> (<["b" := 2]> ∅)) ∧
  ∃ (pm : gmap string ptr) h1,
    ToMap listed_order (Some 0) sample_store = Ok (Some pm) h1 ∧
    dom pm = dom (<["a" := 1]> (<["b" := 2]> ∅) : gmap string nat) ∧
    (∃ q, pm !! "b" = Some q ∧ q ≠ NilPtr ∧ deref h1 q = Some 2) ∧
    maps h1 = maps sample_store.
Proof.
  split; [exact sample_map_lookup|].
  destruct (ToMap_pointers_distinct listed_order listed_order_perm
              sample_store 0 _ sample_map_lookup)
    as (pm & h1 & Hrun & Hdom & Hptr & _ & Hmaps & _).
  exists pm, h1. split; [exact Hrun|]. split; [exact Hdom|].
  split; [|exact Hmaps].
  destruct (Hptr "b" 2) as (q & Hq & Hne & _ & Hd).
  { rewrite lookup_insert_ne by done. apply lookup_insert_eq. }
  exists q. split; [exact Hq|]. split; [exact Hne|exact Hd].
Defined.

Lemma FromMap_entries_witness :
  map_Forall (λ _ p, valid_ptr sample_store p) sample_ptr_map ∧
  ∃ r h' (m : gmap string nat),
    FromMap 0 listed_order (Some sample_ptr_map) sample_store = Ok (Some r) h' ∧
    maps h' !! r = Some m ∧
    m !! "y" = Some 0 ∧ m !! "x" = Some 2.
Proof.
  split; [exact sample_ptr_map_valid|].
  destruct (FromMap_entries 0 listed_order listed_order_perm
              sample_store sample_ptr_map sample_ptr_map_valid)
    as (r & h' & m & Hrun & _ & Hm & Hnil & Hval & _).
  exists r, h', m. split; [exact Hrun|]. split; [exact Hm|]. split.
  - apply Hnil. unfold sample_ptr_map.
    rewrite lookup_insert_ne by done. apply lookup_insert_eq.
  - apply (Hval "x" (Addr 1) 2); [apply lookup_insert_eq|reflexivity].
Defined.

Lemma FromMap_ToMap_copies_witness :
  maps sample_store !! 0 = Some (<["a" := 1]> (<["b" := 2]> ∅)) ∧
  ∃ r' h',
    (let* pm := ToMap listed_order (Some 0) in FromMap 0 listed_order pm)
      sample_store = Ok (Some r') h' ∧
    r' ≠ 0 ∧
    maps h' !! r' = Some (<["a" := 1]> (<["b" := 2]> ∅)).
Proof.
  split; [exact sample_map_lookup|].
  destruct (FromMap_ToMap_copies 0 listed_order listed_order_perm
              sample_store 0 _ sample_map_lookup)
    as (r' & h' & Hrun & Hne & Hcopy & _).
  exists r', h'. split; [exact Hrun|]. split; [exact Hne|exact Hcopy].
Defined.

Lemma ToMap_FromMap_never_nil_witness :
  map_Forall (λ _ p, valid_ptr sample_store p) sample_ptr_map ∧
  ∃ (qm : gmap string ptr) h',
    (let* r := FromMap 0 listed_order (Some sample_ptr_map) in
     ToMap listed_order r) sample_store = Ok (Some qm) h' ∧
    dom qm = dom sample_ptr_map.
Proof.
  split; [exact sample_ptr_map_valid|].
  destruct (ToMap_FromMap_never_nil 0 listed_order listed_order_perm
              sample_store sample_ptr_map sample_ptr_map_valid)
    as (qm & h' & Hrun & Hdom & _).
  exists qm, h'. split; [exact Hrun|exact Hdom].
Defined.

Lemma Set_changes_one_cell_witness :
  valid_ptr sample_store (Addr 1) ∧
  ∃ h',
    Set_ (Addr 1) 7 sample_store = Ok true h' ∧
    deref h' (Addr 1) = Some 7 ∧
    deref h' (Addr 0) = Some 1.
Proof.
  assert (Hv : valid_ptr sample_store (Addr 1)) by (simpl; lia).
  split; [exact Hv|].
  destruct (Set_changes_one_cell sample_store (Addr 1) 7 Hv)
    as (h' & Hrun & _ & Hnew & Hframe & _).
  exists h'. split; [exact Hrun|]. split.
  - apply Hnew. discriminate.
  - apply (Hframe (Addr 0)). discriminate.
Defined.

Lemma Set_then_read_witness :
  valid_ptr sample_store (Addr 1) ∧ Addr 1 ≠ NilPtr ∧
  ∃ h',
    Set_ (Addr 1) 7 sample_store = Ok true h' ∧
    MustFrom (Addr 1) h' = Ok 7 h'.
Proof.
  assert (Hv : valid_ptr sample_store (Addr 1)) by (simpl; lia).
  assert (Hne : Addr 1 ≠ NilPtr) by discriminate.
  split; [exact Hv|]. split; [exact Hne|].
  destruct (Set_then_read 0 sample_store (Addr 1) 7 5 Hv Hne)
    as (h' & Hrun & _ & _ & Hmust).
  exists h'. split; [exact Hrun|exact Hmust].
Defined.

Lemma Set_overwrites_witness :
  valid_ptr sample_store (Addr 1) ∧
  (let* _ := Set_ (Addr 1) 7 in Set_ (Addr 1) 8) sample_store
  = Set_ (Addr 1) 8 sample_store.
Proof.
  assert (Hv : valid_ptr sample_store (Addr 1)) by (simpl; lia).
  split; [exact Hv|].
  exact (proj1 (Set_overwrites 0 sample_store (Addr 1) 7 8 Hv)).
Defined.

Lemma Equal_symmetric_witness :
  (∀ x y, Nat.eqb x y = Nat.eqb y x) ∧
  valid_ptr sample_store (Addr 0) ∧ valid_ptr sample_store NilPtr ∧
  Equal Nat.eqb (Addr 0) NilPtr sample_store
  = Equal Nat.eqb NilPtr (Addr 0) sample_store.
Proof.
  assert (Ha : valid_ptr sample_store (Addr 0)) by (simpl; lia).
  assert (Hb : valid_ptr sample_store NilPtr) by exact I.
  split; [exact Nat.eqb_sym|]. split; [exact Ha|]. split; [exact Hb|].
  exact (Equal_symmetric Nat.eqb sample_store (Addr 0) NilPtr Nat.eqb_sym Ha Hb).
Defined.

Lemma Equal_Copy_witness :
  valid_ptr sample_store (Addr 2) ∧
  ∃ q h1,
    Copy (Addr 2) sample_store = Ok q h1 ∧
    q ≠ Addr 2 ∧
    Equal Nat.eqb (Addr 2) q h1 = Ok true h1.
Proof.
  assert (Hv : valid_ptr sample_store (Addr 2)) by (simpl; lia).
  split; [exact Hv|].
  destruct (Equal_Copy Nat.eqb sample_store (Addr 2) Hv)
    as (q & h1 & Hrun & _ & Hne & Heq).
  exists q, h1. split; [exact Hrun|]. split; [|exact Heq].
  apply Hne. discriminate.
Defined.

Lemma Coalesce_returns_an_argument_witness :
  Forall (valid_ptr sample_store) [NilPtr; Addr 2; Addr 0] ∧
  valid_ptr sample_store (Coalesce [NilPtr; Addr 2; Addr 0]).
Proof.
  assert (Hv : Forall (valid_ptr sample_store) [NilPtr; Addr 2; Addr 0]).
  { repeat constructor; simpl; lia. }
  split; [exact Hv|].
  exact (proj1 (Coalesce_returns_an_argument sample_store _ Hv)).
Defined.

Lemma FromOr_by_Coalesce_witness :
  Forall (valid_ptr sample_store) [NilPtr; NilPtr] ∧
  ∃ v q h1,
    FromOr (Coalesce [NilPtr; NilPtr]) 5 sample_store = Ok v sample_store ∧
    To 5 sample_store = Ok q h1 ∧
    MustFrom (Coalesce ([NilPtr; NilPtr] ++ [q])) h1 = Ok v h1.
Proof.
  assert (Hv : Forall (valid_ptr sample_store) [NilPtr; NilPtr]).
  { repeat constructor. }
  split; [exact Hv|].
  destruct (FromOr_by_Coalesce 0 sample_store _ 5 Hv)
    as (v & q & h1 & Hor & Hto & Hmust & _).
  exists v, q, h1. split; [exact Hor|]. split; [exact Hto|exact Hmust].
Defined.

Lemma IsNil_of_results_witness :
  valid_ptr sample_store (Addr 0) ∧
  IsNil (T:=nat) (Coalesce [NilPtr; Addr 1]) sample_store = Ok false sample_store.
Proof.
  assert (Hv : valid_ptr sample_store (Addr 0)) by (simpl; lia).
  split; [exact Hv|].
  destruct (IsNil_of_results sample_store (Addr 0) 4 [NilPtr; Addr 1] Hv)
    as (_ & _ & Hco).
  exact Hco.
Defined.

Lemma Map_applies_function_witness :
  valid_ptr sample_store (Addr 2) ∧
  ∃ q hR',
    Map (Addr 2) (Some Z.of_nat) sample_store sample_int_store = Ok q hR' ∧
    From 0%Z q hR' = Ok 3%Z hR'.
Proof.
  assert (Hv : valid_ptr sample_store (Addr 2)) by (simpl; lia).
  split; [exact Hv|].
  destruct (Map_applies_function 0%Z sample_store sample_int_store (Addr 2)
              Z.of_nat Hv)
    as (_ & q & hR' & Hrun & _ & _ & Hfrom & _).
  exists q, hR'. split; [exact Hrun|exact Hfrom].
Defined.


Lemma Map_identity_is_Copy_witness :
  valid_ptr sample_store (Addr 2) ∧
  Map (Addr 2) (Some id) sample_store sample_store = Copy (Addr 2) sample_store.
Proof.
  assert (Hv : valid_ptr sample_store (Addr 2)) by (simpl; lia).
  split; [exact Hv|].
  exact (Map_identity_is_Copy sample_store (Addr 2) Hv).
Defined.

Lemma typed_collections_extract_witness :
  Forall (valid_ptr sample_int_store) [Addr 1; NilPtr] ∧
  map_Forall (λ _ p, valid_ptr sample_string_store p)
             (<["k" := NilPtr]> (∅ : gmap string ptr)) ∧
  valid_slice sample_int_store (Some (Slice 0 2)) ∧
  (∃ s h', Typed.ToIntSlice (Some [Addr 1; NilPtr]) sample_int_store
           = Ok (Some s) h' ∧
           elems h' s !! 1 = Some 0%Z) ∧
  (∃ s h', (let* qs := Typed.IntSlice (Some (Slice 0 2)) in
            Typed.ToIntSlice qs) sample_int_store = Ok (Some s) h' ∧
           elems h' s = elems sample_int_store (Slice 0 2)).
Proof.
  assert (Hps : Forall (valid_ptr sample_int_store) [Addr 1; NilPtr]).
  { repeat constructor; simpl; lia. }
  assert (Hpm : map_Forall (λ _ p, valid_ptr sample_string_store p)
                           (<["k" := NilPtr]> (∅ : gmap string ptr))).
  { apply map_Forall_insert_2; [done|apply map_Forall_empty]. }
  assert (Hvs : valid_slice sample_int_store (Some (Slice 0 2))) by (simpl; lia).
  split; [exact Hps|]. split; [exact Hpm|]. split; [exact Hvs|].
  destruct (typed_collections_extract listed_order listed_order_perm
              sample_int_store sample_string_store _ _ _ Hps Hpm Hvs)
    as ((s & h' & Hrun & Hnil) & _ & Hrt).
  split; [|exact Hrt].
  exists s, h'. split; [exact Hrun|]. apply Hnil. reflexivity.
Defined.
